(** * Kaniko: the layered map of the snapshot engine and the Dockerfile
      stage utilities

    A shallow embedding of [pkg/snapshot/layered_map.go] (package
    [snapshot]) and of the stage resolver and dependency analyser of package
    [dockerfile], with the properties their specification states.

    Go maps are finite maps ([gmap]) and Go sets ([map[string]struct{}]) are
    finite sets ([gset]); slices are lists; a Go string is a [string] (a
    sequence of bytes).  A run-time panic (an index out of range) is the
    [Panic] outcome of the [exec] type; a Go [(value, error)] result is a
    sum. *)

From Stdlib Require Import Ascii.
From stdpp Require Import gmap strings list fin_maps sorting pretty.

Open Scope string_scope.
Open Scope list_scope.
Set Warnings "-register-all,-clear-no-such-hyp".

(** ** Outcomes of Go calls *)

(** The Go [error] values met here are messages. *)
Definition error : Type := string.

(** A call either returns normally or panics. *)
Inductive exec (A : Type) : Type :=
| Normal (a : A)
| Panic.
Arguments Normal {A} a.
Arguments Panic {A}.

Global Instance exec_ret : MRet exec := @Normal.
Global Instance exec_bind : MBind exec := λ A B k x,
  match x with
  | Normal a => k a
  | Panic => Panic
  end.

(** [xs[len(xs)-1] = f(xs[len(xs)-1])]: the index is -1 on an empty slice,
    which panics. *)
Definition updTop {A} (f : A → A) (xs : list A) : exec (list A) :=
  match length xs with
  | 0 => Panic
  | S n =>
      match xs !! n with
      | Some top => Normal (<[n := f top]> xs)
      | None => Panic
      end
  end.

(** ** JSON documents

    [encoding/json] turns a slice into an array (a nil slice into [null]) and
    a [map[string]string] into an object whose keys are sorted as strings.
    The document is kept abstract here; its rendering as bytes is a function
    of the document alone and is taken as a parameter below. *)
Inductive JSON : Type :=
| JNull
| JString (s : string)
| JArray (xs : list JSON)
| JObject (fields : list (string * JSON)).

(** Byte-wise lexicographic order on keys, as Go compares strings. *)
Definition key_le (x y : string * string) : Prop := String.leb x.1 y.1 = true.

Global Instance key_le_dec x y : Decision (key_le x y).
Proof. unfold key_le. apply _. Defined.

Definition jsonOfLayer (m : gmap string string) : JSON :=
  JObject (prod_map id JString <$> merge_sort key_le (map_to_list m)).

Definition jsonOfLayers (ls : list (gmap string string)) : JSON :=
  match ls with
  | [] => JNull
  | _ => JArray (jsonOfLayer <$> ls)
  end.

Module snapshot.

Section layered_map.
(** The state of the file system the hash functions read. *)
Context {World : Type}.

(** [json.Encoder.Encode] on a document and [util.SHA256] on the encoded
    bytes: both live outside this file. *)
Variable jsonMarshal : JSON → string + error.
Variable SHA256 : string → string + error.

Record LayeredMap : Type := mkLayeredMap {
  layers : list (gmap string string);   (* All layers with added files. *)
  whiteouts : list (gset string);       (* All layers with deleted files. *)
  currentImage : gmap string string;
  isCurrentImageValid : bool;
  layerHashCache : gmap string string;
  hasher : World → string → string + error;
  cacheHasher : World → string → string + error
}.

Definition setLayers (ls : list (gmap string string)) (l : LayeredMap) :=
  mkLayeredMap ls (whiteouts l) (currentImage l) (isCurrentImageValid l)
    (layerHashCache l) (hasher l) (cacheHasher l).
Definition setWhiteouts (ws : list (gset string)) (l : LayeredMap) :=
  mkLayeredMap (layers l) ws (currentImage l) (isCurrentImageValid l)
    (layerHashCache l) (hasher l) (cacheHasher l).
Definition setCurrentImage (img : gmap string string) (l : LayeredMap) :=
  mkLayeredMap (layers l) (whiteouts l) img (isCurrentImageValid l)
    (layerHashCache l) (hasher l) (cacheHasher l).
Definition setValid (b : bool) (l : LayeredMap) :=
  mkLayeredMap (layers l) (whiteouts l) (currentImage l) b
    (layerHashCache l) (hasher l) (cacheHasher l).
Definition setLayerHashCache (c : gmap string string) (l : LayeredMap) :=
  mkLayeredMap (layers l) (whiteouts l) (currentImage l)
    (isCurrentImageValid l) c (hasher l) (cacheHasher l).

Definition NewLayeredMap (h c : World → string → string + error) : LayeredMap :=
  mkLayeredMap [] [] ∅ false ∅ h c.

(** One round of the loop of [UpdateCurrentImage]: the added files of layer
    [i] are written into the image, then its deleted files are removed.
    [l.whiteouts[i]] panics when the whiteouts are shorter. *)
Definition flattenLayer (l : LayeredMap) (acc : exec (gmap string string))
    (i : nat) : exec (gmap string string) :=
  img ← acc;
  match layers l !! i, whiteouts l !! i with
  | Some addedFiles, Some deletedFiles =>
      let img := map_fold (λ add hash cur, <[add := hash]> cur) img addedFiles in
      Normal (set_fold (λ del cur, delete del cur) img deletedFiles)
  | _, _ => Panic
  end.

Definition flattenLayers (l : LayeredMap) : exec (gmap string string) :=
  foldl (flattenLayer l) (Normal ∅) (seq 0 (length (layers l))).

Definition UpdateCurrentImage (l : LayeredMap) : exec LayeredMap :=
  if isCurrentImageValid l then Normal l
  else
    img ← flattenLayers l;
    Normal (setValid true (setCurrentImage img l)).

Definition Snapshot (l : LayeredMap) : exec LayeredMap :=
  l ← UpdateCurrentImage l;
  let l := setWhiteouts (whiteouts l ++ [∅]) l in
  let l := setLayers (layers l ++ [∅]) l in
  Normal (setLayerHashCache ∅ l).

Definition Key (l : LayeredMap) : string + error :=
  match jsonMarshal (jsonOfLayers (layers l)) with
  | inr err => inr err
  | inl c => SHA256 c
  end.

(** The loop of [Get], from index [n - 1] down to 0. *)
Fixpoint getFrom (ls : list (gmap string string)) (s : string) (n : nat)
    : string * bool :=
  match n with
  | 0 => ("", false)
  | S i =>
      match ls !! i with
      | Some m =>
          match m !! s with
          | Some v => (v, true)
          | None => getFrom ls s i
          end
      | None => getFrom ls s i
      end
  end.

Definition Get (l : LayeredMap) (s : string) : string * bool :=
  getFrom (layers l) s (length (layers l)).

Definition GetCurrentPaths (l : LayeredMap) : exec (gset string * LayeredMap) :=
  l ← UpdateCurrentImage l;
  let paths : gset string :=
    map_fold (λ f _ paths, {[f]} ∪ paths) ∅ (currentImage l) in
  Normal (paths, l).

Definition AddWhiteout (s : string) (l : LayeredMap) : exec (option error * LayeredMap) :=
  let l := setValid false l in
  ws ← updTop (λ top : gset string, {[s]} ∪ top) (whiteouts l);
  Normal (None, setWhiteouts ws l).

(** The closure of [Add]: the hash cache first, the hasher otherwise.  The
    first component lists the paths the hasher was called on. *)
Definition cachedHash (l : LayeredMap) (w : World) (s : string)
    : list string * (string + error) :=
  match layerHashCache l !! s with
  | Some v => ([], inl v)
  | None => ([s], hasher l w s)
  end.

(** [Add] returns the paths the hasher was called on, the error (if any)
    and the map. *)
Definition Add (w : World) (s : string) (l : LayeredMap)
    : exec (list string * option error * LayeredMap) :=
  let l := setValid false l in
  let '(calls, r) := cachedHash l w s in
  match r with
  | inr err =>
      Normal (calls, Some ("Error creating hash for " +:+ s +:+ ": " +:+ err), l)
  | inl newV =>
      ls ← updTop (λ top : gmap string string, <[s := newV]> top) (layers l);
      Normal (calls, None, setLayers ls l)
  end.

(** [CheckFileChange] returns the paths the hasher was called on, the
    [(bool, error)] pair and the map.  The timing of the call is not
    modelled. *)
Definition CheckFileChange (w : World) (s : string) (l : LayeredMap)
    : list string * (bool * option error) * LayeredMap :=
  match hasher l w s with
  | inr err => ([s], (false, Some err), l)
  | inl newV =>
      let l := setLayerHashCache (<[s := newV]> (layerHashCache l)) l in
      match currentImage l !! s with
      | Some oldV =>
          if decide (newV = oldV) then ([s], (false, None), l)
          else ([s], (true, None), l)
      | None => ([s], (true, None), l)
      end
  end.

(** *** Sequences of calls *)

Inductive Call : Type :=
| CallSnapshot
| CallAdd (w : World) (s : string)
| CallAddWhiteout (s : string)
| CallCheckFileChange (w : World) (s : string)
| CallGetCurrentPaths
| CallUpdateCurrentImage.

Definition step (c : Call) (l : LayeredMap) : exec LayeredMap :=
  match c with
  | CallSnapshot => Snapshot l
  | CallAdd w s => r ← Add w s l; Normal r.2
  | CallAddWhiteout s => r ← AddWhiteout s l; Normal r.2
  | CallCheckFileChange w s => Normal (CheckFileChange w s l).2
  | CallGetCurrentPaths => r ← GetCurrentPaths l; Normal r.2
  | CallUpdateCurrentImage => UpdateCurrentImage l
  end.

Fixpoint runCalls (cs : list Call) (l : LayeredMap) : exec LayeredMap :=
  match cs with
  | [] => Normal l
  | c :: cs => l ← step c l; runCalls cs l
  end.

(** A map some sequence of calls builds from a new one. *)
Definition reachable (l : LayeredMap) : Prop :=
  ∃ h c cs, runCalls cs (NewLayeredMap h c) = Normal l.

(** Calls that write to the top layer or to the hash cache only. *)
Definition topLayerCall (c : Call) : Prop :=
  match c with
  | CallAdd _ _ | CallAddWhiteout _ | CallCheckFileChange _ _ => True
  | _ => False
  end.

(** *** The specification's view: layers and the flattened image *)

(** A Layer is a pair (added, deleted). *)
Definition Layer : Type := gmap string string * gset string.

Definition layerStack (l : LayeredMap) : list Layer :=
  zip (layers l) (whiteouts l).

(** Each added entry overwrites, then each deleted entry removes. *)
Definition applyLayer (img : gmap string string) (ly : Layer) : gmap string string :=
  filter (λ kv, kv.1 ∉ ly.2) (ly.1 ∪ img).

Definition FlattenedImage (st : list Layer) : gmap string string :=
  foldl applyLayer ∅ st.

(** What every reachable map satisfies: the two slices go together, and a
    current image marked valid is the flattened image. *)
Definition consistent (l : LayeredMap) : Prop :=
  length (layers l) = length (whiteouts l) ∧
  (isCurrentImageValid l = true →
   currentImage l = FlattenedImage (layerStack l)).

End layered_map.

(** *** A small file system for examples

    The world is a table from paths to the hash of the file at that path; a
    path that is not in the table cannot be hashed. *)
Definition tableHasher (fs : gmap string string) (p : string) : string + error :=
  match fs !! p with
  | Some h => inl h
  | None => inr "no such file"
  end.

Definition newTableMap : @LayeredMap (gmap string string) :=
  NewLayeredMap tableHasher tableHasher.

Definition fsS1 : gmap string string :=
  {[ "/a" := "h1"; "/b" := "h2"; "/c" := "h3" ]}.

(** Scenario S1 of the specification. *)
Definition callsS1 : list (@Call (gmap string string)) :=
  [ CallSnapshot; CallAdd fsS1 "/a"; CallAdd fsS1 "/b";
    CallSnapshot; CallAddWhiteout "/a"; CallAdd fsS1 "/c" ].

Definition mapS1 : @LayeredMap (gmap string string) :=
  mkLayeredMap
    [ {[ "/a" := "h1"; "/b" := "h2" ]}; {[ "/c" := "h3" ]} ]
    [ ∅; {[ "/a" ]} ]
    {[ "/a" := "h1"; "/b" := "h2" ]} false ∅ tableHasher tableHasher.

(** One open layer holding [/f] with hash [h]; the stored image is still the
    empty one of the time the layer was opened. *)
Definition fsF : gmap string string := {[ "/f" := "h" ]}.

Definition callsF : list (@Call (gmap string string)) :=
  [ CallSnapshot; CallAdd fsF "/f" ].

Definition mapF : @LayeredMap (gmap string string) :=
  mkLayeredMap [ {[ "/f" := "h" ]} ] [ ∅ ] ∅ false ∅ tableHasher tableHasher.

(** A new map with one layer opened. *)
Definition mapOpened : @LayeredMap (gmap string string) :=
  mkLayeredMap [ ∅ ] [ ∅ ] ∅ true ∅ tableHasher tableHasher.

(** Stand-ins for the encoder and the digest in examples: an encoder that
    renders every document alike, and a digest that keeps the bytes. *)
Definition constMarshal (d : JSON) : string + error := inl "doc".
Definition constSHA256 (c : string) : string + error := inl c.





End snapshot.

(** * Package [dockerfile] *)

Module dockerfile.

(** [strconv.Itoa]: the decimal numeral of an integer. *)
Definition Itoa (i : Z) : string := pretty i.

(** The instructions met by the code below; every other instruction is an
    [OtherCommand]. *)
Inductive Command : Type :=
| EnvCommand (Env : list (string * string))
| ArgCommand (Key : string) (Value : option string)
| CopyCommand (From : string) (SourcesAndDest : list string)
| OtherCommand (name : string).

Record Stage : Type := mkStage {
  Name : string;
  BaseName : string;
  Commands : list Command
}.

Definition setCommands (cmds : list Command) (stage : Stage) : Stage :=
  mkStage (Name stage) (BaseName stage) cmds.

(** ** ResolveStages *)

(** [if stage.Name != index { nameToIndex[stage.Name] = index }] *)
Definition register (i : nat) (nameToIndex : gmap string string) (stage : Stage)
    : gmap string string :=
  let index := Itoa (Z.of_nat i) in
  if decide (Name stage ≠ index) then <[Name stage := index]> nameToIndex
  else nameToIndex.

(** The body of the loop over the commands of a stage: the [From] of a copy
    is written in place. *)
Definition resolveCommand (nameToIndex : gmap string string) (cmd : Command) : Command :=
  match cmd with
  | CopyCommand from sd =>
      if decide (from ≠ "") then
        match nameToIndex !! from with
        | Some val => CopyCommand val sd
        | None => cmd
        end
      else cmd
  | _ => cmd
  end.

(** The loop over the stages, from stage [i] on, with the names seen so
    far. *)
Fixpoint resolveFrom (i : nat) (nameToIndex : gmap string string)
    (stages : list Stage) : list Stage :=
  match stages with
  | [] => []
  | stage :: rest =>
      let nameToIndex := register i nameToIndex stage in
      setCommands (resolveCommand nameToIndex <$> Commands stage) stage
        :: resolveFrom (S i) nameToIndex rest
  end.

Definition ResolveStages (stages : list Stage) : list Stage :=
  resolveFrom 0 ∅ stages.

(** The names registered once the stages of [stages] are gone through. *)
Fixpoint registered (i : nat) (nameToIndex : gmap string string)
    (stages : list Stage) : gmap string string :=
  match stages with
  | [] => nameToIndex
  | stage :: rest => registered (S i) (register i nameToIndex stage) rest
  end.

(** A string that starts as a decimal numeral does: with a digit or a
    sign.  The parser gives a stage the name written after [AS], which
    starts with a letter, or no name at all. *)
Definition numeralStart (s : string) : bool :=
  match s with
  | EmptyString => false
  | String c _ =>
      bool_decide (c = "-"%char) ||
      (Nat.leb 48 (Ascii.nat_of_ascii c) && Nat.leb (Ascii.nat_of_ascii c) 57)
  end.

Definition parsedNames (stages : list Stage) : bool :=
  forallb (λ stage, negb (numeralStart (Name stage))) stages.

(** Two commands that differ at most by the [From] of a copy, and two
    stages that differ at most by that of their copies. *)
Definition commandSameButFrom (c c' : Command) : Prop :=
  match c, c' with
  | CopyCommand _ sd, CopyCommand _ sd' => sd = sd'
  | _, _ => c = c'
  end.

Definition stageSameButFrom (stage stage' : Stage) : Prop :=
  Name stage = Name stage' ∧ BaseName stage = BaseName stage' ∧
  Forall2 commandSameButFrom (Commands stage) (Commands stage').

(** A table of names: names on the left, numerals on the right. *)
Definition namesToNumerals (m : gmap string string) : Prop :=
  ∀ k v, m !! k = Some v → numeralStart k = false ∧ numeralStart v = true.

(** ** Dependencies *)

(** What [Dependencies] uses of the rest of the program and of its
    libraries: the constants, the images and their configuration, the build
    arguments, the resolution of environment variables and of wildcards,
    and the path functions. *)
Class Collaborators : Type := {
  Image : Type;
  Config : Type;
  BuildArgs : Type;
  Reference : Type;
  Authenticator : Type;
  NoBaseImage : string;
  RootDir : string;
  KanikoIntermediateStagesDir : string;
  StageTar : string;
  emptyImage : Image;
  FilepathExists : string → bool;
  ImageFromPath : string → Image + error;
  ParseReference : string → Reference + error;
  KeychainResolve : Reference → Authenticator + error;
  RemoteImage : Reference → Authenticator → Image + error;
  ConfigFile : Image → Config + error;
  ConfigEnv : Config → list string;
  ReplacementEnvs : BuildArgs → list string → list string;
  AddArg : BuildArgs → string → option string → BuildArgs;
  UpdateConfigEnv : list (string * string) → Config → list string → Config + error;
  ResolveEnvironmentReplacementList : list string → list string → bool → list string + error;
  ResolveSources : list string → string → list string + error;
  filepathJoin : string → string → string;
  filepathIsAbs : string → bool
}.

Section dependencies.
Context `{Collaborators}.

(** The build arguments are written through a pointer, an error ends the
    call, and an index out of range panics. *)
Definition M (A : Type) : Type := BuildArgs → exec ((A + error) * BuildArgs).

Definition ret {A} (a : A) : M A := λ args, Normal (inl a, args).

Definition bind {A B} (m : M A) (k : A → M B) : M B := λ args,
  match m args with
  | Panic => Panic
  | Normal (inr err, args) => Normal (inr err, args)
  | Normal (inl a, args) => k a args
  end.

Definition try {A} (r : A + error) : M A := λ args, Normal (r, args).
Definition getArgs : M BuildArgs := λ args, Normal (inl args, args).
Definition setArgs (args : BuildArgs) : M unit := λ _, Normal (inl tt, args).
Definition panic {A} : M A := λ _, Panic.

Notation "'let*' x ':=' m 'in' k" := (bind m (λ x, k))
  (at level 10, x name, m at level 100, k at level 200).

Fixpoint foldM {A B} (f : A → B → M A) (a : A) (bs : list B) : M A :=
  match bs with
  | [] => ret a
  | b :: bs => let* a := f a b in foldM f a bs
  end.

(** The image a later stage starts from. *)
Definition sourceImage (stage current : Stage) (image : Image) : Image + error :=
  if decide (BaseName stage = NoBaseImage) then inl emptyImage
  else if decide (BaseName stage = Name current) then inl image
  else if FilepathExists (filepathJoin KanikoIntermediateStagesDir (BaseName stage)) then
    ImageFromPath
      (filepathJoin (filepathJoin KanikoIntermediateStagesDir (BaseName stage)) StageTar)
  else
    match ParseReference (BaseName stage) with
    | inr err => inr err
    | inl ref =>
        match KeychainResolve ref with
        | inr err => inr err
        | inl auth => RemoteImage ref auth
        end
    end.

(** [if !filepath.IsAbs(src) { srcs[index] = filepath.Join(RootDir, src) }] *)
Definition absolute (src : string) : string :=
  if filepathIsAbs src then src else filepathJoin RootDir src.

(** One command of a later stage.  The state is the configuration of the
    stage's image and the dependencies so far. *)
Definition dependenciesCommand (index : Z) (st : Config * list string)
    (cmd : Command) : M (Config * list string) :=
  let '(imageConfig, dependencies) := st in
  match cmd with
  | EnvCommand env =>
      let* args := getArgs in
      let replacementEnvs := ReplacementEnvs args (ConfigEnv imageConfig) in
      let* imageConfig := try (UpdateConfigEnv env imageConfig replacementEnvs) in
      ret (imageConfig, dependencies)
  | ArgCommand key value =>
      let* args := getArgs in
      let* u := setArgs (AddArg args key value) in
      ret st
  | CopyCommand from sourcesAndDest =>
      if decide (from ≠ Itoa index) then ret st
      else
        let* args := getArgs in
        let replacementEnvs := ReplacementEnvs args (ConfigEnv imageConfig) in
        let* resolvedEnvs :=
          try (ResolveEnvironmentReplacementList sourcesAndDest replacementEnvs true) in
        let* srcs := try (ResolveSources resolvedEnvs RootDir) in
        ret (imageConfig, dependencies ++ (absolute <$> srcs))
  | OtherCommand _ => ret st
  end.

(** [stages[index]] *)
Definition stageAt (stages : list Stage) (index : Z) : M Stage :=
  if decide (index < 0)%Z then panic
  else
    match stages !! Z.to_nat index with
    | Some stage => ret stage
    | None => panic
    end.

(** One round of the loop over the stages. *)
Definition dependenciesStage (index : Z) (stages : list Stage) (image : Image)
    (dependencies : list string) (stageIndex : nat) (stage : Stage)
    : M (list string) :=
  if decide (Z.of_nat stageIndex ≤ index)%Z then ret dependencies
  else
    let* current := stageAt stages index in
    let* sourceImage := try (sourceImage stage current image) in
    let* imageConfig := try (ConfigFile sourceImage) in
    let* st :=
      foldM (dependenciesCommand index) (imageConfig, dependencies)
        (Commands stage) in
    ret (st.2).

(** The loop over the stages [rest], the first of which has index
    [stageIndex] in [stages]. *)
Fixpoint dependenciesLoop (index : Z) (stages : list Stage) (image : Image)
    (dependencies : list string) (stageIndex : nat) (rest : list Stage)
    : M (list string) :=
  match rest with
  | [] => ret dependencies
  | stage :: rest =>
      let* dependencies :=
        dependenciesStage index stages image dependencies stageIndex stage in
      dependenciesLoop index stages image dependencies (S stageIndex) rest
  end.

Definition Dependencies (index : Z) (stages : list Stage) (image : Image)
    : M (list string) :=
  dependenciesLoop index stages image [] 0 stages.

(** *** The copies a list of dependencies comes from *)

(** The sources and destination of a command that is a copy from the stage
    [index], named by its numeral. *)
Definition copySources (index : Z) (cmd : Command) : list (list string) :=
  match cmd with
  | CopyCommand from sourcesAndDest =>
      if decide (from = Itoa index) then [sourcesAndDest] else []
  | _ => []
  end.

(** The copies from the stage [index] in the stages after it, in the order
    of the script; [rest] are the stages from position [stageIndex] on. *)
Fixpoint copiesFrom (index : Z) (stageIndex : nat) (rest : list Stage)
    : list (list string) :=
  match rest with
  | [] => []
  | stage :: rest =>
      (if decide (Z.of_nat stageIndex ≤ index)%Z then []
       else concat (copySources index <$> Commands stage))
      ++ copiesFrom index (S stageIndex) rest
  end.

Definition laterCopies (index : Z) (stages : list Stage) : list (list string) :=
  copiesFrom index 0 stages.

(** The paths [group] are what the sources of a copy resolve to, in some
    environment, made absolute. *)
Definition resolvesTo (sourcesAndDest group : list string) : Prop :=
  ∃ envs resolvedEnvs srcs,
    ResolveEnvironmentReplacementList sourcesAndDest envs true = inl resolvedEnvs ∧
    ResolveSources resolvedEnvs RootDir = inl srcs ∧
    group = absolute <$> srcs.

(** An outcome whose value, if there is one, is passed through [f]. *)
Definition onValue {A B} (f : A → B) (r : exec ((A + error) * BuildArgs))
    : exec ((B + error) * BuildArgs) :=
  match r with
  | Normal (inl a, args) => Normal (inl (f a), args)
  | Normal (inr err, args) => Normal (inr err, args)
  | Panic => Panic
  end.

End dependencies.

(** *** Collaborators for examples

    Nothing to substitute, no wildcard: the sources of a copy are what is
    written but for the destination, which comes last. *)
Global Instance plainCollaborators : Collaborators := {|
  Image := unit;
  Config := list string;
  BuildArgs := list (string * option string);
  Reference := string;
  Authenticator := unit;
  NoBaseImage := "scratch";
  RootDir := "/";
  KanikoIntermediateStagesDir := "/kaniko/stages";
  StageTar := "stage.tar";
  emptyImage := tt;
  FilepathExists := λ _, false;
  ImageFromPath := λ _, inl tt;
  ParseReference := λ s, inl s;
  KeychainResolve := λ _, inl tt;
  RemoteImage := λ _ _, inl tt;
  ConfigFile := λ _, inl [];
  ConfigEnv := λ cfg, cfg;
  ReplacementEnvs := λ _ env, env;
  AddArg := λ args key value, args ++ [(key, value)];
  UpdateConfigEnv := λ env cfg _, inl (cfg ++ ((λ kv, kv.1 +:+ "=" +:+ kv.2) <$> env));
  ResolveEnvironmentReplacementList := λ values _ _, inl values;
  ResolveSources := λ srcsAndDest _, inl (removelast srcsAndDest);
  filepathJoin := λ a b, a +:+ b;
  filepathIsAbs := λ p, match p with String "/" _ => true | _ => false end
|}.

(** Scenario S3: [FROM base AS builder], then a stage that copies
    [/out/app] from [builder]. *)
Definition stagesS3 : list Stage :=
  [ mkStage "builder" "base" [ OtherCommand "RUN" ];
    mkStage "" "scratch" [ CopyCommand "builder" ["/out/app"; "/usr/bin/app"] ] ].

(** Two later stages copy the same path from the first stage. *)
Definition stagesTwice : list Stage :=
  [ mkStage "builder" "base" [ OtherCommand "RUN" ];
    mkStage "" "scratch" [ CopyCommand "0" ["/out/app"; "/usr/bin/app"] ];
    mkStage "" "scratch" [ CopyCommand "0" ["/out/app"; "/opt/app"] ] ].

(** The stages of S3 once resolved, and the same with other instructions
    in the first stage. *)
Definition stagesS3Resolved : list Stage :=
  [ mkStage "builder" "base" [ OtherCommand "RUN" ];
    mkStage "" "scratch" [ CopyCommand "0" ["/out/app"; "/usr/bin/app"] ] ].

Definition stagesS3Other : list Stage :=
  [ mkStage "builder" "other" [ CopyCommand "0" ["/etc"; "/etc"];
                                 ArgCommand "A" None ];
    mkStage "" "scratch" [ CopyCommand "0" ["/out/app"; "/usr/bin/app"] ] ].

(** A later stage sets its environment, declares an argument and copies
    the same path twice from the first stage, and once from elsewhere. *)
Definition stagesRepeat : list Stage :=
  [ mkStage "builder" "base" [ OtherCommand "RUN" ];
    mkStage "" "scratch"
      [ EnvCommand [("OUT", "/out")];
        CopyCommand "0" ["/out/app"; "/usr/bin/app"];
        ArgCommand "V" None;
        CopyCommand "busybox" ["/bin/sh"; "/bin/sh"];
        CopyCommand "0" ["/out/app"; "lib"; "/opt/"] ] ].

(** A later stage with instructions of every kind but a copy from the
    first stage. *)
Definition stagesElsewhere : list Stage :=
  [ mkStage "builder" "base" [ OtherCommand "RUN" ];
    mkStage "" "scratch"
      [ EnvCommand [("OUT", "/out")];
        ArgCommand "V" None;
        CopyCommand "busybox" ["/bin/sh"; "/bin/sh"];
        CopyCommand "1" ["/etc/passwd"; "/etc/"];
        OtherCommand "RUN" ] ].

(** The first stage copies from the second, by its name. *)
Definition stagesForward : list Stage :=
  [ mkStage "first" "base" [ CopyCommand "second" ["/x"; "/y"] ];
    mkStage "second" "base" [] ].

(** A stage list no script parses to: the first stage is named [1]. *)
Definition stagesNumeral : list Stage :=
  [ mkStage "1" "base" [];
    mkStage "a" "base" [ CopyCommand "a" ["/x"; "/y"] ] ].

End dockerfile.

(** * Re-parsing of commands (package [dockerfile]) *)

Module onbuild.
Import dockerfile.

(** [strings.Join] *)
Fixpoint Join (elems : list string) (sep : string) : string :=
  match elems with
  | [] => ""
  | [x] => x
  | x :: rest => x +:+ sep +:+ Join rest sep
  end.

Definition newline : string := String (ascii_of_nat 10) EmptyString.

Section parse_commands.
(** A node of the parsed text. *)
Context {Node : Type}.

(** [parser.Parse], which gives the children of the root of the parsed
    text, and [instructions.ParseCommand]: both belong to the parser. *)
Variable parserParse : string → list Node + error.
Variable ParseCommand : Node → Command + error.

(** The loop over the children, with the commands gathered so far. *)
Fixpoint parseChildren (cmds : list Command) (children : list Node)
    : list Command + error :=
  match children with
  | [] => inl cmds
  | child :: children =>
      match ParseCommand child with
      | inr err => inr err
      | inl cmd => parseChildren (cmds ++ [cmd]) children
      end
  end.

Definition ParseCommands (cmdArray : list string) : list Command + error :=
  let cmdString := Join cmdArray newline in
  match parserParse cmdString with
  | inr err => inr err
  | inl children => parseChildren [] children
  end.

End parse_commands.

(** A parser for examples: the whole text is one node, and a node that
    starts with a capital letter is an instruction. *)
Definition wholeText (text : string) : list string + error :=
  if decide (text = "") then inr "file with no instructions" else inl [text].

Definition nameOnly (node : string) : Command + error :=
  match node with
  | String c _ =>
      if Nat.leb 65 (nat_of_ascii c) && Nat.leb (nat_of_ascii c) 90
      then inl (OtherCommand node)
      else inr "unknown instruction"
  | EmptyString => inr "unknown instruction"
  end.

End onbuild.

(** * Container runtimes (package [util]) *)

Module util.

Definition ContainerRuntime : Type := string.

Definition RuntimeDocker : ContainerRuntime := "docker".
Definition RuntimeRkt : ContainerRuntime := "rkt".
Definition RuntimeNspawn : ContainerRuntime := "systemd-nspawn".
Definition RuntimeLXC : ContainerRuntime := "lxc".
Definition RuntimeLXCLibvirt : ContainerRuntime := "lxc-libvirt".
Definition RuntimeOpenVZ : ContainerRuntime := "openvz".
Definition RuntimeKubernetes : ContainerRuntime := "kube".
Definition RuntimeGarden : ContainerRuntime := "garden".
Definition RuntimePodman : ContainerRuntime := "podman".
Definition RuntimeGVisor : ContainerRuntime := "gvisor".
Definition RuntimeFirejail : ContainerRuntime := "firejail".
Definition RuntimeWSL : ContainerRuntime := "wsl".
Definition RuntimeNotFound : ContainerRuntime := "not-found".

Definition ContainerRuntimes : list ContainerRuntime :=
  [ RuntimeDocker; RuntimeRkt; RuntimeNspawn; RuntimeLXC; RuntimeLXCLibvirt;
    RuntimeOpenVZ; RuntimeKubernetes; RuntimeGarden; RuntimePodman;
    RuntimeGVisor; RuntimeFirejail; RuntimeWSL ].

(** [strings.HasPrefix] *)
Definition HasPrefix (s prefix : string) : bool := String.prefix prefix s.

(** [strings.Contains]: [substr] starts at some position of [s]. *)
Fixpoint Contains (s substr : string) : bool :=
  HasPrefix s substr ||
  match s with
  | EmptyString => false
  | String _ rest => Contains rest substr
  end.

(** What the functions read of the machine: whether [os.Stat] says that a
    file does not exist, what [ioutil.ReadFile] gives ([None] for nil, the
    error being dropped), and the environment. *)
Record Host : Type := mkHost {
  statNotExist : string → bool;
  ReadFile : string → option string;
  Getenv : string → string
}.

Section proc.
(** [strings.TrimSpace], of the standard library. *)
Variable TrimSpace : string → string.

(** The loop of [getContainerRuntime]: the first runtime of the list that
    the input contains. *)
Fixpoint firstContained (input : string) (runtimes : list ContainerRuntime)
    : ContainerRuntime :=
  match runtimes with
  | [] => RuntimeNotFound
  | runtime :: runtimes =>
      if Contains input runtime then runtime
      else firstContained input runtimes
  end.

Definition getContainerRuntime (input : string) : ContainerRuntime :=
  if Nat.ltb (String.length (TrimSpace input)) 1 then RuntimeNotFound
  else firstContained input ContainerRuntimes.

Definition osFileExists (h : Host) (file : string) : bool :=
  negb (statNotExist h file).

Definition readFile (h : Host) (file : string) : option string :=
  if negb (osFileExists h file) then None else ReadFile h file.

Definition readFileString (h : Host) (file : string) : string :=
  match readFile h file with
  | None => ""
  | Some b => TrimSpace b
  end.

(** The file of the control groups: of the process itself unless [pid] is
    positive. *)
Definition cgroupFile (tgid pid : Z) : string :=
  if decide (0 < pid)%Z then
    if decide (0 < tgid)%Z then
      "/proc/" +:+ pretty tgid +:+ "/task/" +:+ pretty pid +:+ "/cgroup"
    else "/proc/" +:+ pretty pid +:+ "/cgroup"
  else "/proc/self/cgroup".

Definition GetContainerRuntime (h : Host) (tgid pid : Z) : ContainerRuntime :=
  let a := readFileString h (cgroupFile tgid pid) in
  let runtime := getContainerRuntime a in
  if decide (runtime ≠ RuntimeNotFound) then runtime
  else if osFileExists h "/proc/vz" && negb (osFileExists h "/proc/bc") then
    RuntimeOpenVZ
  else if osFileExists h "/__runsc_containers__" then RuntimeGVisor
  else
    let a := readFileString h "/proc/1/cmdline" in
    let runtime := getContainerRuntime a in
    if decide (runtime ≠ RuntimeNotFound) then runtime
    else
      let a := readFileString h "/proc/version_signature" in
      if HasPrefix a "Microsoft" then RuntimeWSL
      else
        let a := Getenv h "container" in
        let runtime := getContainerRuntime a in
        if decide (runtime ≠ RuntimeNotFound) then runtime
        else
          let a := readFileString h "/run/systemd/container" in
          let runtime := getContainerRuntime a in
          if decide (runtime ≠ RuntimeNotFound) then runtime
          else RuntimeNotFound.

End proc.

(** *** Hosts for examples *)

(** No trimming at all stands in for [strings.TrimSpace] where the texts
    have no space around them. *)
Definition noTrim (s : string) : string := s.

(** A machine with nothing to read. *)
Definition bareHost : Host := mkHost (λ _, true) (λ _, None) (λ _, "").

(** A machine whose own control groups name both docker and kube. *)
Definition podHost : Host :=
  mkHost (λ file, negb (bool_decide (file = "/proc/self/cgroup")))
         (λ _, Some "12:pids:/kubepods/pod1/docker-0123")
         (λ _, "").

(** A machine where the root directory and [/proc/bc] exist, and nothing
    that is probed; every file that can be read names docker. *)
Definition rootOnlyHost : Host :=
  mkHost (λ file, negb (bool_decide (file = "/") || bool_decide (file = "/proc/bc")))
         (λ _, Some "docker")
         (λ _, "").

(** A machine where the control groups of thread 42 of process 7 name lxc,
    while the environment names docker. *)
Definition taskHost : Host :=
  mkHost (λ file, negb (bool_decide (file = "/proc/7/task/42/cgroup")))
         (λ _, Some "1:name=systemd:/lxc/web")
         (λ _, "docker").

(** The files that are probed whatever the process. *)
Definition fixedProbes : list string :=
  [ "/proc/vz"; "/proc/bc"; "/__runsc_containers__"; "/proc/1/cmdline";
    "/proc/version_signature"; "/run/systemd/container" ].

End util.

(** * Properties of the layered map *)

Module snapshot_facts.
Import snapshot.

Section flattening.
Context {World : Type}.
Implicit Types l : @LayeredMap World.
Implicit Types img : gmap string string.

(** Writing the entries of [m] one by one into [img], in whatever order
    the map is ranged over, gives [m] laid over [img]. *)
Lemma range_insert_union img (m : gmap string string) :
  map_fold (λ add hash cur, <[add := hash]> cur) img m = m ∪ img.
Proof.
  apply (map_fold_weak_ind (λ r m, r = m ∪ img)).
  - by rewrite (left_id_L ∅ (∪)).
  - intros k v m' r _ ->. by rewrite insert_union_l.
Qed.

Lemma range_delete_lookup img (d : gset string) k :
  set_fold (λ del cur, delete del cur) img d !! k
  = if decide (k ∈ d) then None else img !! k.
Proof.
  revert k.
  set (P := λ (r : gmap string string) (X : gset string),
    ∀ k, r !! k = if decide (k ∈ X) then None else img !! k).
  change (P (set_fold (λ del cur, delete del cur) img d) d).
  apply set_fold_ind_L; unfold P.
  - intros k. by rewrite decide_False by set_solver.
  - intros x X r _ IH k. rewrite lookup_delete, IH.
    destruct (decide (x = k)), (decide (k ∈ X)), (decide (k ∈ {[x]} ∪ X));
      set_solver.
Qed.

Lemma range_delete_filter img (d : gset string) :
  set_fold (λ del cur, delete del cur) img d
  = filter (λ kv : string * string, kv.1 ∉ d) img.
Proof.
  apply map_eq. intros k. rewrite range_delete_lookup.
  apply option_eq. intros v. rewrite map_lookup_filter_Some. simpl.
  destruct (decide (k ∈ d)); naive_solver.
Qed.

Lemma flattenLayer_applyLayer l img i a d :
  layers l !! i = Some a → whiteouts l !! i = Some d →
  flattenLayer l (Normal img) i = Normal (applyLayer img (a, d)).
Proof.
  intros Ha Hd. unfold flattenLayer. simpl. rewrite Ha, Hd.
  by rewrite range_insert_union, range_delete_filter.
Qed.

Lemma flattenLayers_from l :
  length (layers l) = length (whiteouts l) →
  ∀ n k img, k + n = length (layers l) →
    foldl (flattenLayer l) (Normal img) (seq k n)
    = Normal (foldl applyLayer img (drop k (layerStack l))).
Proof.
  intros Hlen. induction n as [|n IH]; intros k img Hk; cbn [seq foldl].
  - rewrite drop_ge; [done|]. unfold layerStack.
    rewrite length_zip_with_l_eq by done. lia.
  - destruct (lookup_lt_is_Some_2 (layers l) k) as [a Ha]; [lia|].
    destruct (lookup_lt_is_Some_2 (whiteouts l) k) as [d Hd]; [lia|].
    rewrite (flattenLayer_applyLayer _ _ _ a d) by done.
    rewrite IH by lia.
    rewrite (drop_S (layerStack l) (a, d) k); [done|].
    unfold layerStack. by apply lookup_zip_Some.
Qed.

(** The loop of [UpdateCurrentImage] computes the flattened image. *)
Lemma flattenLayers_FlattenedImage l :
  length (layers l) = length (whiteouts l) →
  flattenLayers l = Normal (FlattenedImage (layerStack l)).
Proof.
  intros Hlen. unfold flattenLayers, FlattenedImage.
  by rewrite (flattenLayers_from l Hlen _ 0 ∅).
Qed.

Lemma applyLayer_empty img : applyLayer img (∅, ∅) = img.
Proof.
  unfold applyLayer. simpl. rewrite (left_id_L ∅ (∪)).
  apply map_filter_id. set_solver.
Qed.

Lemma range_keys_dom img :
  map_fold (λ (f _ : string) (paths : gset string), {[f]} ∪ paths) ∅ img = dom img.
Proof.
  apply (map_fold_weak_ind (λ (r : gset string) (m : gmap string string), r = dom m)).
  - by rewrite dom_empty_L.
  - intros k v m r _ ->. by rewrite dom_insert_L.
Qed.

End flattening.

Section invariant.
Context {World : Type}.
Implicit Types l : @LayeredMap World.

Lemma updTop_length {A} (f : A → A) xs ys :
  updTop f xs = Normal ys → length ys = length xs.
Proof.
  unfold updTop. destruct (length xs) as [|n] eqn:Hn; [done|].
  destruct (xs !! n); [|done]. intros [= <-]. by rewrite length_insert.
Qed.

Lemma updTop_snoc {A} (f : A → A) xs top :
  updTop f (xs ++ [top]) = Normal (xs ++ [f top]).
Proof.
  unfold updTop. rewrite length_app. simpl.
  replace (length xs + 1) with (S (length xs)) by lia.
  rewrite list_lookup_middle by done. f_equal.
  rewrite insert_app_r_alt by done. by rewrite Nat.sub_diag.
Qed.

(** [UpdateCurrentImage] on a consistent map returns, leaves the layers
    alone and stores the flattened image. *)
Lemma UpdateCurrentImage_consistent l :
  consistent l →
  ∃ l', UpdateCurrentImage l = Normal l' ∧
    layers l' = layers l ∧ whiteouts l' = whiteouts l ∧
    layerHashCache l' = layerHashCache l ∧
    hasher l' = hasher l ∧ cacheHasher l' = cacheHasher l ∧
    isCurrentImageValid l' = true ∧
    currentImage l' = FlattenedImage (layerStack l).
Proof.
  intros [Hlen Hval]. unfold UpdateCurrentImage.
  destruct (isCurrentImageValid l) eqn:Hv.
  - exists l. split_and!; auto.
  - rewrite flattenLayers_FlattenedImage by done. simpl.
    eexists. split; [done|]. by split_and!.
Qed.

Lemma layerStack_snoc (ls : list (gmap string string)) (ws : list (gset string)) a d :
  length ls = length ws →
  zip (ls ++ [a]) (ws ++ [d]) = zip ls ws ++ [(a, d)].
Proof. intros Hlen. by rewrite zip_with_app. Qed.

Lemma Snapshot_consistent l :
  consistent l →
  ∃ l', Snapshot l = Normal l' ∧
    layers l' = layers l ++ [∅] ∧ whiteouts l' = whiteouts l ++ [∅] ∧
    layerHashCache l' = ∅ ∧
    hasher l' = hasher l ∧ cacheHasher l' = cacheHasher l ∧
    isCurrentImageValid l' = true ∧
    currentImage l' = FlattenedImage (layerStack l) ∧
    FlattenedImage (layerStack l') = FlattenedImage (layerStack l).
Proof.
  intros Hc. destruct (UpdateCurrentImage_consistent l Hc)
    as (l1 & Hupd & Hl & Hw & Hh & Hha & Hca & Hv & Hcur).
  unfold Snapshot. rewrite Hupd. simpl. eexists. split; [done|]. simpl.
  rewrite Hl, Hw. split_and!; try done.
  unfold layerStack. simpl. rewrite layerStack_snoc by apply Hc.
  unfold FlattenedImage. rewrite foldl_snoc. apply applyLayer_empty.
Qed.

Lemma step_consistent c l l' :
  consistent l → step c l = Normal l' → consistent l'.
Proof.
  intros Hc. destruct c as [|w s|s|w s| |]; simpl.
  - destruct (Snapshot_consistent l Hc) as (l1 & -> & Hl & Hw & _ & _ & _ & Hv & Hcur & Hfl).
    intros [= <-]. split.
    + rewrite Hl, Hw, !length_app. simpl. destruct Hc as [-> _]. done.
    + intros _. by rewrite Hfl.
  - unfold Add. destruct (cachedHash _ w s) as [calls [newV|err]]; simpl.
    + destruct (updTop _ _) as [ls|] eqn:Hupd; [|done]. simpl.
      intros [= <-]. split; [|done]. simpl.
      apply updTop_length in Hupd. simpl in Hupd. rewrite Hupd. apply Hc.
    + intros [= <-]. split; [apply Hc|done].
  - unfold AddWhiteout. destruct (updTop _ _) as [ws|] eqn:Hupd; [|done]. simpl.
    intros [= <-]. split; [|done]. simpl.
    apply updTop_length in Hupd. simpl in Hupd. rewrite Hupd. apply Hc.
  - unfold CheckFileChange. intros [= <-].
    destruct (hasher l w s) as [newV|err]; [|done].
    simpl. destruct (currentImage l !! s) as [oldV|]; [case_decide|];
      simpl; exact Hc.
  - unfold GetCurrentPaths.
    destruct (UpdateCurrentImage_consistent l Hc)
      as (l1 & -> & Hl & Hw & _ & _ & _ & Hv & Hcur).
    simpl. intros [= <-]. unfold consistent, layerStack.
    rewrite Hl, Hw. split; [apply Hc|done].
  - destruct (UpdateCurrentImage_consistent l Hc)
      as (l1 & -> & Hl & Hw & _ & _ & _ & Hv & Hcur).
    intros [= <-]. unfold consistent, layerStack.
    rewrite Hl, Hw. split; [apply Hc|done].
Qed.

Lemma runCalls_consistent cs l l' :
  consistent l → runCalls cs l = Normal l' → consistent l'.
Proof.
  revert l. induction cs as [|c cs IH]; intros l Hc; simpl.
  - by intros [= <-].
  - destruct (step c l) as [l1|] eqn:Hstep; [|done]. simpl.
    apply IH. by eapply step_consistent.
Qed.

Lemma NewLayeredMap_consistent (h c : World → string → string + error) :
  consistent (NewLayeredMap h c).
Proof. split; [done|]. simpl. done. Qed.

Lemma reachable_consistent l : reachable l → consistent l.
Proof.
  intros (h & c & cs & Hrun).
  eapply runCalls_consistent; [apply NewLayeredMap_consistent|done].
Qed.

Lemma runCalls_app cs1 cs2 l :
  runCalls (cs1 ++ cs2) l = (l1 ← runCalls cs1 l; runCalls cs2 l1).
Proof.
  revert l. induction cs1 as [|c cs1 IH]; intros l; simpl; [done|].
  destruct (step c l); simpl; [apply IH|done].
Qed.

Lemma reachable_runCalls cs l l' :
  reachable l → runCalls cs l = Normal l' → reachable l'.
Proof.
  intros (h & c & cs0 & Hrun) Hcs. exists h, c, (cs0 ++ cs).
  rewrite runCalls_app, Hrun. done.
Qed.

End invariant.

Section flattened_lookup.
Context {World : Type}.
Implicit Types l : @LayeredMap World.

(** The most recent layer that mentions a path wins: a whiteout of the
    path in the top layer hides it, otherwise an added entry of the top
    layer is its hash, otherwise the layers below decide. *)
Lemma FlattenedImage_snoc_lookup (st : list Layer) (a : gmap string string)
    (d : gset string) (p : string) :
  FlattenedImage (st ++ [(a, d)]) !! p
  = if decide (p ∈ d) then None
    else match a !! p with
         | Some v => Some v
         | None => FlattenedImage st !! p
         end.
Proof.
  unfold FlattenedImage. rewrite foldl_snoc. unfold applyLayer. simpl.
  apply option_eq. intros v. rewrite map_lookup_filter_Some. simpl.
  rewrite lookup_union_Some_raw.
  destruct (decide (p ∈ d)); [naive_solver|].
  destruct (a !! p); naive_solver.
Qed.

Lemma GetCurrentPaths_consistent l :
  consistent l →
  ∃ l', GetCurrentPaths l = Normal (dom (FlattenedImage (layerStack l)), l') ∧
    layers l' = layers l ∧ whiteouts l' = whiteouts l.
Proof.
  intros Hc. destruct (UpdateCurrentImage_consistent l Hc)
    as (l1 & Hupd & Hl & Hw & _ & _ & _ & _ & Hcur).
  unfold GetCurrentPaths. rewrite Hupd. simpl.
  rewrite range_keys_dom, Hcur. eauto.
Qed.

End flattened_lookup.

Section stored_image.
Context {World : Type}.
Implicit Types l : @LayeredMap World.

(** Calls on the top layer leave the stored image and the hash functions
    as they are. *)
Lemma topLayerCall_step c l l' :
  topLayerCall c → step c l = Normal l' →
  currentImage l' = currentImage l ∧ hasher l' = hasher l.
Proof.
  destruct c as [|w s|s|w s| |]; simpl; try done; intros _.
  - unfold Add. destruct (cachedHash _ w s) as [calls [newV|err]]; simpl.
    + destruct (updTop _ _); [|done]. simpl. by intros [= <-].
    + by intros [= <-].
  - unfold AddWhiteout. destruct (updTop _ _); [|done]. simpl. by intros [= <-].
  - intros [= <-]. unfold CheckFileChange.
    destruct (hasher l w s); [|done]. simpl.
    destruct (currentImage l !! s); [case_decide|]; done.
Qed.

Lemma topLayerCall_runCalls cs l l' :
  Forall topLayerCall cs → runCalls cs l = Normal l' →
  currentImage l' = currentImage l ∧ hasher l' = hasher l.
Proof.
  intros Hcs. revert l. induction Hcs as [|c cs Hc _ IH]; intros l; simpl.
  - by intros [= <-].
  - destruct (step c l) as [l1|] eqn:Hstep; [|done]. simpl. intros Hrun.
    destruct (IH l1 Hrun) as [-> ->]. by apply (topLayerCall_step c).
Qed.

(** [CheckFileChange] compares with the stored image. *)
Lemma CheckFileChange_stored l w p v :
  hasher l w p = inl v →
  (CheckFileChange w p l).1
  = ([p], (bool_decide (currentImage l !! p ≠ Some v), None)).
Proof.
  intros Hh. unfold CheckFileChange. rewrite Hh. simpl.
  destruct (currentImage l !! p) as [oldV|] eqn:Hcur.
  - case_decide as Hv; simpl.
    + subst. by rewrite bool_decide_eq_false_2 by naive_solver.
    + by rewrite bool_decide_eq_true_2 by naive_solver.
  - by rewrite bool_decide_eq_true_2.
Qed.

End stored_image.

(** ** Flattening *)

(** C1. For every map built from a new one by a finite sequence of calls
    ([Snapshot], [Add], [AddWhiteout], and the reading calls as well),
    [GetCurrentPaths] returns, and the set it returns is the set of keys of
    the image obtained by folding the layers in order over the empty
    mapping, where each layer's added entries are inserted (overwriting) and
    then its deleted entries are removed. *)
Theorem GetCurrentPaths_flattened {World : Type}
    (h c : World → string → string + error) (cs : list Call) (l : LayeredMap) :
  runCalls cs (NewLayeredMap h c) = Normal l →
  ∃ l', GetCurrentPaths l = Normal (dom (FlattenedImage (layerStack l)), l') ∧
    layerStack l' = layerStack l.
Proof.
  intros Hrun.
  assert (consistent l) as Hc by (apply reachable_consistent; red; eauto).
  destruct (GetCurrentPaths_consistent l Hc) as (l' & Hget & Hl & Hw).
  exists l'. split; [done|]. unfold layerStack. by rewrite Hl, Hw.
Qed.

Lemma GetCurrentPaths_flattened_S1 :
  runCalls callsS1 newTableMap = Normal mapS1 ∧
  ∃ l', GetCurrentPaths mapS1
        = Normal (dom (FlattenedImage (layerStack mapS1)), l') ∧
    layerStack l' = layerStack mapS1.
Proof.
  split; [vm_compute; reflexivity|].
  apply (GetCurrentPaths_flattened tableHasher tableHasher callsS1 mapS1).
  vm_compute. reflexivity.
Defined.

(** Scenario S1: the paths of the image are [/b] and [/c]. *)
Example current_paths_S1 :
  dom (FlattenedImage (layerStack mapS1)) = ({[ "/b"; "/c" ]} : gset string).
Proof. vm_compute. reflexivity. Qed.

(** ** Change detection *)

(** C3, as the code has it.  When the hasher succeeds on [p] with hash [v],
    [CheckFileChange] calls the hasher once and returns [true] exactly when
    the stored current image does not map [p] to [v]; a path absent from the
    stored image is reported as changed.  The stored image is the flattening
    of the layers as they were when it was last refreshed (by [Snapshot] or
    [GetCurrentPaths]): calls on the open top layer made since then
    ([post]) are not reflected. *)
Theorem CheckFileChange_against_stored_image {World : Type}
    (l0 l : @LayeredMap World) (post : list Call) (w : World) (p v : string) :
  reachable l0 →
  isCurrentImageValid l0 = true →
  Forall topLayerCall post →
  runCalls post l0 = Normal l →
  hasher l w p = inl v →
  (CheckFileChange w p l).1
  = ([p], (bool_decide (FlattenedImage (layerStack l0) !! p ≠ Some v), None)).
Proof.
  intros Hreach Hvalid Hpost Hrun Hh.
  rewrite (CheckFileChange_stored l w p v Hh).
  destruct (topLayerCall_runCalls post l0 l Hpost Hrun) as [-> _].
  destruct (reachable_consistent l0 Hreach) as [_ Hcur].
  by rewrite (Hcur Hvalid).
Qed.

Lemma CheckFileChange_against_stored_image_F :
  (CheckFileChange fsF "/f" mapF).1 = (["/f"], (true, None)).
Proof.
  apply (CheckFileChange_against_stored_image
           mapOpened mapF [CallAdd fsF "/f"] fsF "/f" "h").
  - exists tableHasher, tableHasher, [CallSnapshot]. vm_compute. reflexivity.
  - reflexivity.
  - repeat constructor.
  - vm_compute. reflexivity.
  - vm_compute. reflexivity.
Defined.

(** After [Snapshot; Add "/f"] the flattening of all layers maps [/f] to the
    hash the hasher still gives, yet [CheckFileChange] reports a change. *)
Lemma CheckFileChange_misses_open_layer :
  runCalls callsF newTableMap = Normal mapF ∧
  tableHasher fsF "/f" = inl "h" ∧
  ¬ ((CheckFileChange fsF "/f" mapF).1.2.1 = true ↔
     FlattenedImage (layerStack mapF) !! "/f" ≠ Some "h").
Proof.
  split; [vm_compute; reflexivity|]. split; [vm_compute; reflexivity|].
  intros [Hchanged _]. apply Hchanged; vm_compute; reflexivity.
Qed.

(** Scenario S5: unchanged when the hash is the stored one, changed once the
    hasher gives another hash. *)
Example check_file_change_S5 :
  let l := setCurrentImage {[ "/f" := "h" ]} mapOpened in
  (CheckFileChange fsF "/f" l).1.2 = (false, None) ∧
  (CheckFileChange {[ "/f" := "h'" ]} "/f" l).1.2 = (true, None).
Proof. split; vm_compute; reflexivity. Qed.

(** ** Adding a path *)

(** C4, as the code has it.  [Add] returns an error exactly when hashing
    fails, that is when the hash cache misses and the hasher fails; the
    error wraps the hasher's and the layers are untouched.  When hashing
    succeeds and a layer is open, [Add] succeeds and records the path with
    its hash in the top layer.  When hashing succeeds and no layer is open,
    the write to the top layer panics: no error is returned. *)
Theorem Add_outcomes {World : Type} (w : World) (s : string) (l : @LayeredMap World) :
  ((∃ calls e l', Add w s l = Normal (calls, Some e, l')) ↔
   (layerHashCache l !! s = None ∧ ∃ err, hasher l w s = inr err)) ∧
  (∀ err, (cachedHash l w s).2 = inr err →
     Add w s l = Normal ((cachedHash l w s).1,
       Some ("Error creating hash for " +:+ s +:+ ": " +:+ err),
       setValid false l)) ∧
  (∀ v pre top, (cachedHash l w s).2 = inl v → layers l = pre ++ [top] →
     Add w s l = Normal ((cachedHash l w s).1, None,
       setLayers (pre ++ [<[s := v]> top]) (setValid false l))) ∧
  (∀ v, (cachedHash l w s).2 = inl v → layers l = [] → Add w s l = Panic).
Proof.
  assert (cachedHash (setValid false l) w s = cachedHash l w s) as Hcache by done.
  split_and!.
  - unfold Add. rewrite Hcache. unfold cachedHash.
    destruct (layerHashCache l !! s) as [v|] eqn:Hc; simpl.
    + split; [|by intros [? _]].
      destruct (updTop _ _); simpl; intros (? & ? & ? & ?); done.
    + destruct (hasher l w s) as [v|err] eqn:Hh; simpl.
      * split; [|by intros [_ [? ?]]].
        destruct (updTop _ _); simpl; intros (? & ? & ? & ?); done.
      * split; eauto.
  - intros err Herr. unfold Add. rewrite Hcache.
    destruct (cachedHash l w s) as [calls r]. simpl in *. by subst.
  - intros v pre top Hv Hl. unfold Add. rewrite Hcache.
    destruct (cachedHash l w s) as [calls r]. simpl in *. subst.
    rewrite Hl, updTop_snoc. done.
  - intros v Hv Hl. unfold Add. rewrite Hcache.
    destruct (cachedHash l w s) as [calls r]. simpl in *. subst.
    by rewrite Hl.
Qed.

Lemma Add_outcomes_opened :
  Add fsF "/f" mapOpened
  = Normal (["/f"], None,
            setLayers ([] ++ [<["/f" := "h"]> ∅]) (setValid false mapOpened)).
Proof.
  destruct (Add_outcomes fsF "/f" mapOpened) as (_ & _ & Hok & _).
  apply (Hok "h" [] ∅); reflexivity.
Defined.

(** No layer is open and the path can be hashed: [Add] does not return an
    error, it panics. *)
Lemma Add_before_Snapshot_panics :
  layers newTableMap = [] ∧
  tableHasher fsS1 "/a" = inl "h1" ∧
  Add fsS1 "/a" newTableMap = Panic ∧
  ¬ ∃ calls e l', Add fsS1 "/a" newTableMap = Normal (calls, Some e, l').
Proof.
  split_and!; try (vm_compute; reflexivity).
  intros (calls & e & l' & H). vm_compute in H. discriminate.
Qed.

(** ** Looking a path up *)

Section get.
Context {World : Type}.
Implicit Types l : @LayeredMap World.

Lemma getFrom_found (ls : list (gmap string string)) (s v : string) (n : nat) :
  getFrom ls s n = (v, true) ↔
  ∃ i m, i < n ∧ ls !! i = Some m ∧ m !! s = Some v ∧
    ∀ j m', i < j < n → ls !! j = Some m' → m' !! s = None.
Proof.
  induction n as [|n IH]; simpl.
  - split; [done|]. intros (i & m & Hi & _). lia.
  - destruct (ls !! n) as [m|] eqn:Hn; [destruct (m !! s) as [v0|] eqn:Hs|].
    + split.
      * intros [= ->]. exists n, m. split_and!; [lia|done..|]. intros; lia.
      * intros (i & m1 & Hi & Hm1 & Hv & Habove).
        destruct (decide (i = n)) as [->|Hne].
        { congruence. }
        assert (m !! s = None) by (apply (Habove n); [lia|done]). congruence.
    + rewrite IH. split.
      * intros (i & m1 & Hi & Hm1 & Hv & Habove).
        exists i, m1. split_and!; [lia|done..|]. intros j m' Hj Hm'.
        destruct (decide (j = n)) as [->|Hne]; [congruence|].
        apply (Habove j); [lia|done].
      * intros (i & m1 & Hi & Hm1 & Hv & Habove).
        assert (i ≠ n) by congruence.
        exists i, m1. split_and!; [lia|done..|]. intros j m' Hj.
        apply Habove. lia.
    + rewrite IH. split.
      * intros (i & m1 & Hi & Hm1 & Hv & Habove).
        exists i, m1. split_and!; [lia|done..|]. intros j m' Hj Hm'.
        destruct (decide (j = n)) as [->|Hne]; [congruence|].
        apply (Habove j); [lia|done].
      * intros (i & m1 & Hi & Hm1 & Hv & Habove).
        assert (i ≠ n) by congruence.
        exists i, m1. split_and!; [lia|done..|]. intros j m' Hj.
        apply Habove. lia.
Qed.

Lemma getFrom_absent (ls : list (gmap string string)) (s : string) (n : nat) :
  (getFrom ls s n).2 = false ↔
  ∀ i m, i < n → ls !! i = Some m → m !! s = None.
Proof.
  induction n as [|n IH]; simpl.
  - split; [|done]. intros _ i m Hi. lia.
  - destruct (ls !! n) as [m|] eqn:Hn; [destruct (m !! s) as [v0|] eqn:Hs|];
      simpl.
    + split; [done|]. intros Hall. specialize (Hall n m). rewrite Hs in Hall.
      by discriminate Hall; [lia|].
    + rewrite IH. split.
      * intros Hall i m1 Hi Hm1. destruct (decide (i = n)) as [->|Hne];
          [congruence|]. apply (Hall i); [lia|done].
      * intros Hall i m1 Hi. apply Hall. lia.
    + rewrite IH. split.
      * intros Hall i m1 Hi Hm1. destruct (decide (i = n)) as [->|Hne];
          [congruence|]. apply (Hall i); [lia|done].
      * intros Hall i m1 Hi. apply Hall. lia.
Qed.

Lemma getFrom_false (ls : list (gmap string string)) (s : string) (n : nat) :
  (getFrom ls s n).2 = false → getFrom ls s n = ("", false).
Proof.
  induction n as [|n IH]; simpl; [done|].
  destruct (ls !! n) as [m|]; [destruct (m !! s)|]; simpl; done.
Qed.

End get.

(** C5.  [Get] scans the layers from the topmost down and returns the hash
    of the first layer whose added mapping holds the path: it returns
    [(v, true)] exactly when some layer maps the path to [v] and no layer
    above it holds the path.  It returns [("", false)] exactly when no
    layer's added mapping holds the path.  The whiteouts play no part.  In
    particular after [Snapshot; Add "/a"; Snapshot; AddWhiteout "/a"] the
    hash recorded for [/a] is still returned. *)
Theorem Get_top_down {World : Type} :
  (∀ (l : @LayeredMap World) (p v : string),
     Get l p = (v, true) ↔
     ∃ i m, layers l !! i = Some m ∧ m !! p = Some v ∧
       ∀ j m', i < j → layers l !! j = Some m' → m' !! p = None) ∧
  (∀ (l : @LayeredMap World) (p : string),
     Get l p = ("", false) ↔
     ∀ i m, layers l !! i = Some m → m !! p = None) ∧
  (∀ (l : @LayeredMap World) (p : string), (Get l p).2 = true ∨ Get l p = ("", false)) ∧
  (∀ (l : @LayeredMap World) (ws : list (gset string)) (p : string),
     Get (setWhiteouts ws l) p = Get l p) ∧
  (∀ (h c : World → string → string + error) (w : World) (v : string),
     h w "/a" = inl v →
     ∃ l, runCalls [CallSnapshot; CallAdd w "/a"; CallSnapshot;
                    CallAddWhiteout "/a"] (NewLayeredMap h c) = Normal l ∧
       "/a" ∈ whiteouts l !!! 1 ∧
       Get l "/a" = (v, true)).
Proof.
  split_and!.
  - intros l p v. unfold Get. rewrite getFrom_found. split.
    + intros (i & m & Hi & Hm & Hv & Habove). exists i, m. split_and!; [done..|].
      intros j m' Hj Hm'. apply (Habove j); [|done].
      apply lookup_lt_Some in Hm'. lia.
    + intros (i & m & Hm & Hv & Habove). exists i, m.
      split_and!; [by eapply lookup_lt_Some|done..|].
      intros j m' Hj. apply Habove. lia.
  - intros l p. unfold Get. split.
    + intros Hget i m Hm. eapply getFrom_absent; [by rewrite Hget| |done].
      by eapply lookup_lt_Some.
    + intros Hall. apply getFrom_false, getFrom_absent. intros i m _. apply Hall.
  - intros l p. unfold Get.
    destruct ((getFrom (layers l) p (length (layers l))).2) eqn:Hb; [by left|].
    right. by apply getFrom_false.
  - done.
  - intros h c w v Hh. eexists. split.
    + cbn. unfold Add, cachedHash. cbn. rewrite Hh. cbn. reflexivity.
    + split; [cbn; set_solver|]. cbn. unfold Get. cbn.
      by rewrite lookup_insert_eq.
Qed.

Lemma Get_top_down_whiteout :
  ∃ l, runCalls [CallSnapshot; CallAdd fsS1 "/a"; CallSnapshot;
                 CallAddWhiteout "/a"] newTableMap = Normal l ∧
    "/a" ∈ whiteouts l !!! 1 ∧
    Get l "/a" = ("h1", true).
Proof.
  destruct (@Get_top_down (gmap string string)) as (_ & _ & _ & _ & Hscenario).
  apply (Hscenario tableHasher tableHasher fsS1 "h1"). reflexivity.
Defined.

(** Scenario S1: [/a] is whited out in the top layer and [Get] still
    answers with its hash. *)
Example get_S1 :
  ("/a" ∉ dom (FlattenedImage (layerStack mapS1))) ∧
  Get mapS1 "/a" = ("h1", true).
Proof. split; [vm_compute; intros [=]|vm_compute; reflexivity]. Qed.

(** ** The key *)




Section key.
Context {World : Type}.
Variable jsonMarshal : JSON → string + error.
Variable SHA256 : string → string + error.
Implicit Types l : @LayeredMap World.


End key.


(** Scenario S1: the document behind the key holds the three added paths,
    layer by layer, and no whiteout. *)
Example key_document_S1 :
  jsonOfLayers (layers mapS1)
  = JArray [ JObject [ ("/a", JString "h1"); ("/b", JString "h2") ];
             JObject [ ("/c", JString "h3") ] ].
Proof. vm_compute. reflexivity. Qed.

(** ** Opening a layer *)

(** C7, as the code has it.  On a reachable map [Snapshot] returns; it
    pushes exactly one empty layer (an empty added mapping and an empty
    deleted set) and empties the hash cache.  The current image is not
    invalidated: it is first brought up to date and is left valid, and it is
    the flattened image of the new stack as well, since the new layer is
    empty.  An [Add] issued next calls the hasher, whatever the hash cache
    held before: it records the hasher's hash in the new layer, or returns
    the hasher's error. *)
Theorem Snapshot_opens_layer {World : Type} (l : @LayeredMap World) :
  reachable l →
  ∃ l', Snapshot l = Normal l' ∧
    layers l' = layers l ++ [∅] ∧
    whiteouts l' = whiteouts l ++ [∅] ∧
    layerHashCache l' = ∅ ∧
    isCurrentImageValid l' = true ∧
    currentImage l' = FlattenedImage (layerStack l') ∧
    ∀ w p,
      Add w p l' =
      match hasher l w p with
      | inl v =>
          Normal ([p], None,
                  setLayers (layers l ++ [{[ p := v ]}]) (setValid false l'))
      | inr err =>
          Normal ([p], Some ("Error creating hash for " +:+ p +:+ ": " +:+ err),
                  setValid false l')
      end.
Proof.
  intros Hc%reachable_consistent.
  destruct (Snapshot_consistent l Hc)
    as (l' & Hsnap & Hl & Hw & Hcache & Hh & _ & Hv & Hcur & Hfl).
  exists l'. split_and!; try done.
  - by rewrite Hfl.
  - intros w p. unfold Add, cachedHash. simpl. rewrite Hcache, lookup_empty, Hh.
    destruct (hasher l w p) as [v|err]; [|done].
    rewrite Hl, updTop_snoc. simpl. by rewrite insert_empty.
Qed.

Lemma Snapshot_opens_layer_new :
  ∃ l', Snapshot newTableMap = Normal l' ∧
    layers l' = layers newTableMap ++ [∅] ∧
    whiteouts l' = whiteouts newTableMap ++ [∅] ∧
    layerHashCache l' = ∅ ∧
    isCurrentImageValid l' = true ∧
    currentImage l' = FlattenedImage (layerStack l') ∧
    ∀ w p,
      Add w p l' =
      match hasher newTableMap w p with
      | inl v =>
          Normal ([p], None,
                  setLayers (layers newTableMap ++ [{[ p := v ]}])
                    (setValid false l'))
      | inr err =>
          Normal ([p], Some ("Error creating hash for " +:+ p +:+ ": " +:+ err),
                  setValid false l')
      end.
Proof.
  apply (Snapshot_opens_layer newTableMap).
  exists tableHasher, tableHasher, []. reflexivity.
Defined.

(** [Snapshot] leaves the current image marked valid. *)
Lemma Snapshot_keeps_image_valid :
  Snapshot newTableMap = Normal mapOpened ∧
  isCurrentImageValid mapOpened ≠ false.
Proof. split; [vm_compute; reflexivity|done]. Qed.

(** A hash cached in the previous layer is not reused after [Snapshot]. *)
Example add_after_snapshot_rehashes :
  let old : gmap string string := {[ "/f" := "old" ]} in
  ∃ l1 l2 l3,
    runCalls [CallSnapshot; CallCheckFileChange old "/f"] newTableMap = Normal l1 ∧
    layerHashCache l1 !! "/f" = Some "old" ∧
    Snapshot l1 = Normal l2 ∧
    Add fsF "/f" l2 = Normal (["/f"], None, l3) ∧
    Get l3 "/f" = ("h", true).
Proof.
  do 3 eexists. split_and!; vm_compute; reflexivity.
Qed.

(** ** The two slices *)

(** C9.  In every map built from a new one by a sequence of calls the
    slice of added layers and the slice of whiteout layers have the same
    length, so the loop of [UpdateCurrentImage] never indexes out of range
    and returns.  Every call leaves both lengths as they are, except
    [Snapshot], which appends exactly one element to each. *)
Theorem layers_whiteouts_same_length {World : Type}
    (h c : World → string → string + error) (cs : list Call) (l : LayeredMap) :
  runCalls cs (NewLayeredMap h c) = Normal l →
  length (layers l) = length (whiteouts l) ∧
  (∃ img, flattenLayers l = Normal img) ∧
  (∃ l', UpdateCurrentImage l = Normal l') ∧
  ∀ call l', step call l = Normal l' →
    match call with
    | CallSnapshot =>
        ∃ a d, layers l' = layers l ++ [a] ∧ whiteouts l' = whiteouts l ++ [d]
    | _ =>
        length (layers l') = length (layers l) ∧
        length (whiteouts l') = length (whiteouts l)
    end.
Proof.
  intros Hrun.
  assert (consistent l) as Hc by (apply reachable_consistent; red; eauto).
  split_and!.
  - apply Hc.
  - rewrite flattenLayers_FlattenedImage by apply Hc. eauto.
  - destruct (UpdateCurrentImage_consistent l Hc) as (l' & ? & _). eauto.
  - intros call l' Hstep. destruct call as [|w s|s|w s| |]; simpl in *.
    + destruct (Snapshot_consistent l Hc) as (l1 & Hsnap & Hl & Hw & _).
      rewrite Hsnap in Hstep. injection Hstep as <-. eauto.
    + unfold Add in Hstep.
      destruct (cachedHash _ w s) as [calls [newV|err]]; simpl in Hstep.
      * destruct (updTop _ _) as [ls|] eqn:Hupd; [|done].
        injection Hstep as <-. simpl. by apply updTop_length in Hupd.
      * by injection Hstep as <-.
    + unfold AddWhiteout in Hstep.
      destruct (updTop _ _) as [ws|] eqn:Hupd; [|done].
      injection Hstep as <-. simpl. by apply updTop_length in Hupd.
    + injection Hstep as <-.
      unfold CheckFileChange. destruct (hasher l w s); [|done]. simpl.
      destruct (currentImage l !! s); [case_decide|]; done.
    + unfold GetCurrentPaths in Hstep.
      destruct (UpdateCurrentImage_consistent l Hc) as (l1 & Hupd & Hl & Hw & _).
      rewrite Hupd in Hstep. injection Hstep as <-. by rewrite Hl, Hw.
    + destruct (UpdateCurrentImage_consistent l Hc) as (l1 & Hupd & Hl & Hw & _).
      rewrite Hupd in Hstep. injection Hstep as <-. by rewrite Hl, Hw.
Qed.

Lemma layers_whiteouts_same_length_S1 :
  length (layers mapS1) = length (whiteouts mapS1) ∧
  (∃ img, flattenLayers mapS1 = Normal img) ∧
  (∃ l', UpdateCurrentImage mapS1 = Normal l') ∧
  ∀ call l', step call mapS1 = Normal l' →
    match call with
    | CallSnapshot =>
        ∃ a d, layers l' = layers mapS1 ++ [a] ∧
               whiteouts l' = whiteouts mapS1 ++ [d]
    | _ =>
        length (layers l') = length (layers mapS1) ∧
        length (whiteouts l') = length (whiteouts mapS1)
    end.
Proof.
  apply (layers_whiteouts_same_length tableHasher tableHasher callsS1 mapS1).
  vm_compute. reflexivity.
Defined.

(** Were the whiteouts shorter than the layers, flattening would panic. *)
Example flattenLayers_short_whiteouts :
  flattenLayers (setWhiteouts [] mapF) = Panic.
Proof. reflexivity. Qed.

(** ** A failed [Add] *)

Section failed_add.
Context {World : Type}.
Variable jsonMarshal : JSON → string + error.
Variable SHA256 : string → string + error.
Implicit Types l : @LayeredMap World.

(** C10.  When [Add] returns an error (the hasher failed on the path), no
    layer's added mapping and no deleted set is modified, and [Get],
    [GetCurrentPaths] and [Key] answer as they did before the call; only
    the validity of the stored image may have changed. *)
Theorem Add_error_preserves_layers l (w : World) (p : string)
    (calls : list string) (e : error) l' :
  reachable l →
  Add w p l = Normal (calls, Some e, l') →
  layers l' = layers l ∧
  whiteouts l' = whiteouts l ∧
  isCurrentImageValid l' = false ∧
  (∀ s, Get l' s = Get l s) ∧
  Key jsonMarshal SHA256 l' = Key jsonMarshal SHA256 l ∧
  ∃ paths l1 l1',
    GetCurrentPaths l = Normal (paths, l1) ∧
    GetCurrentPaths l' = Normal (paths, l1').
Proof.
  intros Hreach Hadd.
  assert (l' = setValid false l) as ->.
  { unfold Add in Hadd. destruct (cachedHash _ w p) as [calls' [v|err]].
    - destruct (updTop _ _); simpl in Hadd; [|done]. by injection Hadd.
    - by injection Hadd. }
  split_and!; try done.
  assert (reachable (setValid false l)) as Hreach'.
  { apply (reachable_runCalls [CallAdd w p] l); [done|]. simpl.
    by rewrite Hadd. }
  destruct (GetCurrentPaths_consistent l (reachable_consistent l Hreach))
    as (l1 & H1 & _).
  destruct (GetCurrentPaths_consistent _ (reachable_consistent _ Hreach'))
    as (l1' & H1' & _).
  eauto.
Qed.

End failed_add.

(** [/missing] cannot be hashed: the [Add] fails and nothing has changed. *)
Lemma Add_error_preserves_layers_S1 :
  let l' := setValid false mapS1 in
  layers l' = layers mapS1 ∧
  whiteouts l' = whiteouts mapS1 ∧
  isCurrentImageValid l' = false ∧
  (∀ s, Get l' s = Get mapS1 s) ∧
  Key constMarshal constSHA256 l' = Key constMarshal constSHA256 mapS1 ∧
  ∃ paths l1 l1',
    GetCurrentPaths mapS1 = Normal (paths, l1) ∧
    GetCurrentPaths l' = Normal (paths, l1').
Proof.
  apply (Add_error_preserves_layers constMarshal constSHA256
           mapS1 fsS1 "/missing" ["/missing"]
           "Error creating hash for /missing: no such file"
           (setValid false mapS1)).
  - exists tableHasher, tableHasher, callsS1. vm_compute. reflexivity.
  - vm_compute. reflexivity.
Defined.

End snapshot_facts.

(** * Properties of the stage resolver and of the dependency analyser *)

Module dockerfile_facts.
Import dockerfile.

Section numerals.

Lemma pretty_N_go_numeralStart (x : N) (s : string) :
  (0 < x)%N ∨ numeralStart s = true →
  numeralStart (pretty_N_go x s) = true.
Proof.
  revert s. induction (N.lt_wf_0 x) as [x _ IH]. intros s Hs.
  destruct (decide (x = 0%N)) as [->|Hx].
  - rewrite pretty_N_go_0. destruct Hs as [Hs|Hs]; [lia|done].
  - rewrite pretty_N_go_step by lia. apply IH.
    + apply N.div_lt; lia.
    + right. generalize (x `mod` 10)%N. intros [|d]; [reflexivity|].
      do 4 (destruct d as [d|d|]; try reflexivity).
Qed.

(** A decimal numeral starts with a digit or with a sign. *)
Lemma Itoa_numeralStart (i : Z) : numeralStart (Itoa i) = true.
Proof.
  unfold Itoa, pretty, pretty_Z. destruct i as [|x|x]; [done| |done].
  unfold pretty, pretty_positive, pretty, pretty_N.
  rewrite decide_False by done.
  apply pretty_N_go_numeralStart. left. lia.
Qed.

Lemma not_numeral_Itoa (s : string) (i : Z) :
  numeralStart s = false → s ≠ Itoa i.
Proof. intros Hs ->. by rewrite Itoa_numeralStart in Hs. Qed.

End numerals.

Section resolve.
Implicit Types m : gmap string string.

Lemma register_namesToNumerals i m stage :
  numeralStart (Name stage) = false →
  namesToNumerals m → namesToNumerals (register i m stage).
Proof.
  intros Hname Hm. unfold register. case_decide; [|done].
  intros k v. rewrite lookup_insert_Some. intros [[<- <-]|[_ Hk]].
  - split; [done|apply Itoa_numeralStart].
  - by apply Hm.
Qed.

Lemma resolveCommand_twice m cmd :
  namesToNumerals m →
  resolveCommand m (resolveCommand m cmd) = resolveCommand m cmd.
Proof.
  intros Hm. destruct cmd as [env|key value|from sd|name]; simpl; try done.
  case_decide as Hfrom; simpl; [|by rewrite decide_False by naive_solver].
  destruct (m !! from) as [val|] eqn:Hlook; simpl.
  - case_decide; [|done].
    destruct (m !! val) as [val'|] eqn:Hval; [|done].
    apply Hm in Hlook as [_ Hnum]. apply Hm in Hval as [Hname _]. congruence.
  - by rewrite decide_True, Hlook.
Qed.

Lemma register_setCommands i m cmds stage :
  register i m (setCommands cmds stage) = register i m stage.
Proof. done. Qed.

Lemma resolveFrom_twice i m stages :
  parsedNames stages = true → namesToNumerals m →
  resolveFrom i m (resolveFrom i m stages) = resolveFrom i m stages.
Proof.
  revert i m. induction stages as [|stage rest IH]; intros i m Hnames Hm;
    [done|].
  simpl in Hnames. apply andb_true_iff in Hnames as [Hname Hrest].
  apply negb_true_iff in Hname.
  cbn [resolveFrom]. rewrite register_setCommands.
  pose proof (register_namesToNumerals i m stage Hname Hm) as Hm'.
  f_equal; [|by apply IH].
  unfold setCommands. simpl. f_equal.
  rewrite <-list_fmap_compose. apply list_fmap_ext.
  intros _ cmd _. simpl. by apply resolveCommand_twice.
Qed.

(** Stage [j] is resolved with the names of the stages up to [j]. *)
Lemma resolveFrom_lookup i m stages j stage :
  stages !! j = Some stage →
  resolveFrom i m stages !! j
  = Some (setCommands
            (resolveCommand (registered i m (take (S j) stages)) <$> Commands stage)
            stage).
Proof.
  revert i m j. induction stages as [|st rest IH]; intros i m j Hj; [done|].
  destruct j as [|j]; simpl in *.
  - injection Hj as ->. by destruct rest.
  - by rewrite (IH _ _ j).
Qed.

Lemma registered_absent i m stages from :
  (∀ stage, stage ∈ stages → Name stage ≠ from) →
  registered i m stages !! from = m !! from.
Proof.
  revert i m. induction stages as [|st rest IH]; intros i m Hall; [done|].
  simpl. rewrite IH by (intros; apply Hall; by right).
  unfold register. case_decide; [|done].
  apply lookup_insert_ne, Hall. by left.
Qed.

(** The last stage that bears a name gives the name its index. *)
Lemma registered_last i m stages k stage :
  stages !! k = Some stage →
  Name stage ≠ Itoa (Z.of_nat (i + k)) →
  (∀ k' stage', k < k' → stages !! k' = Some stage' → Name stage' ≠ Name stage) →
  registered i m stages !! Name stage = Some (Itoa (Z.of_nat (i + k))).
Proof.
  revert i m k. induction stages as [|st rest IH]; intros i m k Hk Hne Hlast;
    [done|].
  destruct k as [|k]; simpl in *.
  - injection Hk as ->. rewrite Nat.add_0_r in *.
    rewrite registered_absent.
    + unfold register. rewrite decide_True by done. apply lookup_insert_eq.
    + intros stage' [k' Hk']%list_elem_of_lookup.
      apply (Hlast (S k')); [lia|done].
  - replace (i + S k) with (S i + k) in * by lia.
    apply IH; [done..|].
    intros k' stage' Hlt Hk'. apply (Hlast (S k')); [lia|done].
Qed.

Lemma parsedNames_lookup stages k stage :
  parsedNames stages = true → stages !! k = Some stage →
  numeralStart (Name stage) = false.
Proof.
  revert k. induction stages as [|st rest IH]; intros k Hnames Hk; [done|].
  simpl in Hnames. apply andb_true_iff in Hnames as [Hname Hrest].
  destruct k as [|k]; simpl in Hk.
  - injection Hk as ->. by apply negb_true_iff.
  - by apply (IH k).
Qed.

Lemma resolveFrom_length i m stages :
  length (resolveFrom i m stages) = length stages.
Proof.
  revert i m. induction stages as [|st rest IH]; intros i m; simpl; [done|].
  by rewrite IH.
Qed.

End resolve.

(** ** Stage resolution *)

(** C8, as the code has it.  On the stages of a parsed script, whose names
    start with a letter or are empty, running [ResolveStages] on stages
    already resolved changes nothing.  The first run keeps every stage in
    place with its name, its base and its instructions but for the [From] of
    the copies: a [From] that is the name of a stage met so far (the copy's
    own stage or a previous one) becomes the index of the last such stage; a
    [From] that names no stage met so far, be it the name of a later stage,
    a numeral or an image reference, and an empty [From] are left as they
    are. *)
Theorem ResolveStages_idempotent (stages : list Stage) :
  parsedNames stages = true →
  ResolveStages (ResolveStages stages) = ResolveStages stages ∧
  length (ResolveStages stages) = length stages ∧
  ∀ (i : nat) stage, stages !! i = Some stage →
    ∃ stage', ResolveStages stages !! i = Some stage' ∧
      Name stage' = Name stage ∧
      BaseName stage' = BaseName stage ∧
      length (Commands stage') = length (Commands stage) ∧
      ∀ (n : nat) cmd, Commands stage !! n = Some cmd →
        match cmd with
        | CopyCommand from sd =>
            (∀ (k : nat) named,
               from ≠ "" → (k ≤ i)%nat → stages !! k = Some named → Name named = from →
               (∀ (k' : nat) later, (k < k' ≤ i)%nat → stages !! k' = Some later →
                  Name later ≠ from) →
               Commands stage' !! n = Some (CopyCommand (Itoa (Z.of_nat k)) sd)) ∧
            ((∀ (k : nat) named, (k ≤ i)%nat → stages !! k = Some named → Name named ≠ from) →
               Commands stage' !! n = Some cmd) ∧
            (numeralStart from = true → Commands stage' !! n = Some cmd) ∧
            (from = "" → Commands stage' !! n = Some cmd)
        | _ => Commands stage' !! n = Some cmd
        end.
Proof.
  intros Hnames. split_and!.
  - apply resolveFrom_twice; [done|]. intros k v. by rewrite lookup_empty.
  - apply resolveFrom_length.
  - intros i stage Hi. eexists. split; [by apply resolveFrom_lookup|].
    simpl. split_and!; [done..|by rewrite length_fmap|].
    intros n cmd Hn. set (m := registered 0 ∅ (take (S i) stages)).
    assert (∀ from, (∀ (k : nat) named, (k ≤ i)%nat → stages !! k = Some named →
                       Name named ≠ from) → m !! from = None) as Habsent.
    { intros from Hall. unfold m. rewrite registered_absent; [done|].
      intros named [k Hk]%list_elem_of_lookup.
      apply lookup_take_Some in Hk as [Hk Hlt]. apply (Hall k); [lia|done]. }
    rewrite list_lookup_fmap, Hn. simpl.
    destruct cmd as [env|key value|from sd|name]; [done..| |done].
    split_and!.
    + intros k named Hfrom Hk Hnamed Hname Hlast. simpl.
      rewrite decide_True by done.
      assert (m !! from = Some (Itoa (Z.of_nat k))) as ->; [|done].
      subst from. unfold m.
      apply (registered_last 0 ∅ (take (S i) stages) k named).
      * rewrite lookup_take_lt by lia. done.
      * apply not_numeral_Itoa. by eapply parsedNames_lookup.
      * intros k' later Hlt [Hk' Hle]%lookup_take_Some.
        apply (Hlast k'); [lia|done].
    + intros Hall. simpl. rewrite (Habsent from Hall). by case_decide.
    + intros Hnum. simpl. rewrite (Habsent from); [by case_decide|].
      intros k named _ Hk <-.
      rewrite (parsedNames_lookup stages k named) in Hnum; done.
    + intros ->. done.
Qed.

(** Scenario S3: after the resolution the copy reads [--from=0], and a
    second run changes nothing. *)
Lemma ResolveStages_idempotent_S3 :
  ResolveStages stagesS3
  = [ mkStage "builder" "base" [ OtherCommand "RUN" ];
      mkStage "" "scratch" [ CopyCommand "0" ["/out/app"; "/usr/bin/app"] ] ] ∧
  ResolveStages (ResolveStages stagesS3) = ResolveStages stagesS3.
Proof.
  split; [reflexivity|].
  apply (ResolveStages_idempotent stagesS3). reflexivity.
Defined.

(** The name of a later stage is not resolved: [second] is the name of
    stage 1, and the copy of stage 0 keeps it. *)
Lemma ResolveStages_later_name :
  parsedNames stagesForward = true ∧
  Name <$> stagesForward !! 1 = Some "second" ∧
  ResolveStages stagesForward !! 0
  = Some (mkStage "first" "base" [ CopyCommand "second" ["/x"; "/y"] ]) ∧
  ResolveStages stagesForward !! 0
  ≠ Some (mkStage "first" "base" [ CopyCommand "1" ["/x"; "/y"] ]).
Proof. split_and!; [reflexivity..|]. vm_compute. intros [=]. Qed.

(** The names matter: were a stage named by a numeral, which no script
    parses to, a second run would resolve again. *)
Example ResolveStages_numeral_name :
  parsedNames stagesNumeral = false ∧
  ResolveStages (ResolveStages stagesNumeral) ≠ ResolveStages stagesNumeral.
Proof. split; [reflexivity|]. vm_compute. intros [=]. Qed.

(** ** The dependency list *)

Section dependencies.
Context `{Collaborators}.

(** A command only ever appends to the dependencies it is given. *)
Lemma dependenciesCommand_acc index cfg (acc : list string) cmd args :
  dependenciesCommand index (cfg, acc) cmd args
  = onValue (λ st : Config * list string, (st.1, acc ++ st.2))
      (dependenciesCommand index (cfg, []) cmd args).
Proof.
  destruct cmd as [env|key value|from sd|name]; simpl.
  - unfold bind, getArgs, try, ret.
    destruct (UpdateConfigEnv _ _ _); simpl; by rewrite ?app_nil_r.
  - unfold bind, getArgs, setArgs, ret. simpl. by rewrite app_nil_r.
  - case_decide.
    + unfold ret. simpl. by rewrite app_nil_r.
    + unfold bind, getArgs, try, ret.
      destruct (ResolveEnvironmentReplacementList _ _ _); simpl; [|done].
      destruct (ResolveSources _ _); simpl; done.
  - unfold ret. simpl. by rewrite app_nil_r.
Qed.

Lemma foldM_commands_acc index cmds cfg (acc : list string) args :
  foldM (dependenciesCommand index) (cfg, acc) cmds args
  = onValue (λ st : Config * list string, (st.1, acc ++ st.2))
      (foldM (dependenciesCommand index) (cfg, []) cmds args).
Proof.
  revert cfg acc args. induction cmds as [|cmd cmds IH]; intros cfg acc args.
  - simpl. unfold ret. simpl. by rewrite app_nil_r.
  - cbn [foldM]. unfold bind at 1 2.
    rewrite dependenciesCommand_acc.
    destruct (dependenciesCommand index (cfg, []) cmd args)
      as [[[[cfg1 d1]|err] args1]|]; simpl; [|done..].
    rewrite (IH cfg1 (acc ++ d1)), (IH cfg1 d1).
    destruct (foldM _ (cfg1, []) cmds args1) as [[[[cfg2 d2]|err] args2]|];
      simpl; [|done..].
    by rewrite app_assoc.
Qed.

(** So does a stage. *)
Lemma dependenciesStage_acc index stages image (acc : list string) k stage args :
  dependenciesStage index stages image acc k stage args
  = onValue (app acc) (dependenciesStage index stages image [] k stage args).
Proof.
  unfold dependenciesStage. case_decide.
  - unfold ret. simpl. by rewrite app_nil_r.
  - unfold bind at 1 5.
    destruct (stageAt stages index args) as [[[current|err] args1]|];
      simpl; [|done..].
    unfold bind at 1 4, try at 1 3.
    destruct (sourceImage stage current image) as [src|err]; simpl; [|done].
    unfold bind at 1 3, try.
    destruct (ConfigFile src) as [cfg|err]; simpl; [|done].
    unfold bind. rewrite foldM_commands_acc.
    destruct (foldM _ (cfg, []) (Commands stage) args1)
      as [[[[cfg2 d2]|err] args2]|]; done.
Qed.

(** The stage at [index] is looked for among the stages before the one at
    hand: stages put at the end of the list do not change the outcome. *)
Lemma dependenciesStage_app_l index stages extra image deps k stage args :
  k < length stages →
  dependenciesStage index (stages ++ extra) image deps k stage args
  = dependenciesStage index stages image deps k stage args.
Proof.
  intros Hk. unfold dependenciesStage. case_decide as Hle; [done|].
  assert (stageAt (stages ++ extra) index = stageAt stages index) as ->; [|done].
  unfold stageAt. case_decide; [done|].
  rewrite lookup_app_l by lia. done.
Qed.

Lemma dependenciesLoop_app_l index stages extra image rest :
  ∀ deps k args, (k + length rest ≤ length stages)%nat →
    dependenciesLoop index (stages ++ extra) image deps k rest args
    = dependenciesLoop index stages image deps k rest args.
Proof.
  induction rest as [|stage rest IH]; intros deps k args Hk; [done|].
  simpl in Hk. cbn [dependenciesLoop]. unfold bind.
  rewrite dependenciesStage_app_l by lia.
  destruct (dependenciesStage index stages image deps k stage args)
    as [[[d|err] args1]|]; [|done..].
  apply IH. lia.
Qed.

Lemma dependenciesLoop_snoc index stages image rest stage :
  ∀ deps k args,
    dependenciesLoop index stages image deps k (rest ++ [stage]) args
    = bind (dependenciesLoop index stages image deps k rest)
        (λ d, dependenciesStage index stages image d (k + length rest) stage)
        args.
Proof.
  induction rest as [|st rest IH]; intros deps k args.
  - simpl. rewrite Nat.add_0_r. unfold bind, ret.
    destruct (dependenciesStage index stages image deps k stage args)
      as [[[d|err] args1]|]; reflexivity.
  - cbn [app dependenciesLoop length]. unfold bind. cbn beta.
    destruct (dependenciesStage index stages image deps k st args)
      as [[[d|err] args1]|]; [|done..].
    rewrite IH. unfold bind.
    by replace (S k + length rest) with (k + S (length rest)) by lia.
Qed.

(** A command that returns has appended one group of paths for each copy
    from [index] that it is. *)
Lemma dependenciesCommand_groups index cfg (deps : list string) cmd args
    cfg' deps' args' :
  dependenciesCommand index (cfg, deps) cmd args
  = Normal (inl (cfg', deps'), args') →
  ∃ groups, deps' = deps ++ concat groups ∧
    Forall2 resolvesTo (copySources index cmd) groups.
Proof.
  destruct cmd as [env|key value|from sd|name]; simpl.
  - unfold bind, getArgs, try, ret.
    destruct (UpdateConfigEnv _ _ _); [|done]. intros [= _ <- _].
    exists []. simpl. by rewrite app_nil_r.
  - unfold bind, getArgs, setArgs, ret. intros [= _ <- _].
    exists []. simpl. by rewrite app_nil_r.
  - destruct (decide (from = Itoa index)) as [->|Hfrom].
    + rewrite decide_False by naive_solver.
      unfold bind, getArgs, try, ret.
      destruct (ResolveEnvironmentReplacementList _ _ _) as [resolved|] eqn:Hres;
        [|done].
      destruct (ResolveSources _ _) as [srcs|] eqn:Hsrcs; [|done].
      intros [= _ <- _]. exists [absolute <$> srcs]. simpl.
      rewrite app_nil_r. split; [done|]. constructor; [|done].
      by eexists _, resolved, srcs.
    + rewrite decide_True by done. unfold ret. intros [= _ <- _].
      exists []. simpl. by rewrite app_nil_r.
  - unfold ret. intros [= _ <- _]. exists []. simpl. by rewrite app_nil_r.
Qed.

Lemma foldM_commands_groups index cmds :
  ∀ cfg (deps : list string) args cfg' deps' args',
    foldM (dependenciesCommand index) (cfg, deps) cmds args
    = Normal (inl (cfg', deps'), args') →
    ∃ groups, deps' = deps ++ concat groups ∧
      Forall2 resolvesTo (concat (copySources index <$> cmds)) groups.
Proof.
  induction cmds as [|cmd cmds IH]; intros cfg deps args cfg' deps' args'.
  - simpl. unfold ret. intros [= _ <- _]. exists []. simpl.
    by rewrite app_nil_r.
  - cbn [foldM]. unfold bind.
    destruct (dependenciesCommand index (cfg, deps) cmd args)
      as [[[[cfg1 deps1]|err] args1]|] eqn:Hone; [|done..].
    apply dependenciesCommand_groups in Hone as (groups1 & -> & Hgroups1).
    intros (groups2 & -> & Hgroups2)%IH.
    exists (groups1 ++ groups2). rewrite concat_app, app_assoc.
    split; [done|]. rewrite fmap_cons. simpl. by apply Forall2_app.
Qed.

Lemma dependenciesStage_groups index stages image (deps : list string)
    (k : nat) stage args deps' args' :
  dependenciesStage index stages image deps k stage args
  = Normal (inl deps', args') →
  ∃ groups, deps' = deps ++ concat groups ∧
    Forall2 resolvesTo
      (if decide (Z.of_nat k ≤ index)%Z then []
       else concat (copySources index <$> Commands stage)) groups.
Proof.
  unfold dependenciesStage. case_decide.
  - unfold ret. intros [= <- _]. exists []. simpl. by rewrite app_nil_r.
  - unfold bind at 1.
    destruct (stageAt stages index args) as [[[cur|err] args1]|]; [|done..].
    unfold bind at 1, try at 1.
    destruct (sourceImage stage cur image) as [src|err]; [|done].
    unfold bind at 1, try at 1.
    destruct (ConfigFile src) as [cfg|err]; [|done].
    unfold bind.
    destruct (foldM _ (cfg, deps) (Commands stage) args1)
      as [[[[cfg1 deps1]|err] args2]|] eqn:Hfold; [|done..].
    unfold ret. simpl. intros [= <- _].
    by apply foldM_commands_groups in Hfold.
Qed.

Lemma dependenciesLoop_groups index stages image rest :
  ∀ (deps : list string) (k : nat) args deps' args',
    dependenciesLoop index stages image deps k rest args
    = Normal (inl deps', args') →
    ∃ groups, deps' = deps ++ concat groups ∧
      Forall2 resolvesTo (copiesFrom index k rest) groups.
Proof.
  induction rest as [|stage rest IH]; intros deps k args deps' args'.
  - simpl. unfold ret. intros [= <- _]. exists []. simpl. by rewrite app_nil_r.
  - cbn [dependenciesLoop copiesFrom]. unfold bind.
    destruct (dependenciesStage index stages image deps k stage args)
      as [[[deps1|err] args1]|] eqn:Hone; [|done..].
    apply dependenciesStage_groups in Hone as (groups1 & -> & Hgroups1).
    intros (groups2 & -> & Hgroups2)%IH.
    exists (groups1 ++ groups2). rewrite concat_app, app_assoc.
    split; [done|]. by apply Forall2_app.
Qed.

(** C2, as the code has it.  [Dependencies] does not remove duplicates:
    the list is built by appending only.  A list that [Dependencies]
    returns is the concatenation of groups of paths, one group for each
    copy whose [From] is the numeral of [index] in the stages after
    [index], in the order of the script; the group of a copy is what its
    sources resolve to, made absolute.  A path that several copies name
    therefore comes once for each of them.  Accordingly the result for a
    script with one more stage at its end is the result for the script
    followed by what the new stage contributes; a copy from [index]
    contributes its resolved sources, made absolute, in order, and a copy
    from elsewhere contributes nothing. *)
Theorem Dependencies_appends :
  (∀ index stages image args deps args',
     Dependencies index stages image args = Normal (inl deps, args') →
     ∃ groups, deps = concat groups ∧
       Forall2 resolvesTo (laterCopies index stages) groups) ∧
  (∀ index stages stage image args,
     Dependencies index (stages ++ [stage]) image args
     = bind (Dependencies index stages image)
         (λ deps args',
            onValue (app deps)
              (dependenciesStage index (stages ++ [stage]) image []
                 (length stages) stage args'))
         args) ∧
  (∀ index stages stage image args deps args' more args'',
     Dependencies index stages image args = Normal (inl deps, args') →
     dependenciesStage index (stages ++ [stage]) image [] (length stages)
       stage args' = Normal (inl more, args'') →
     Dependencies index (stages ++ [stage]) image args
     = Normal (inl (deps ++ more), args'')) ∧
  (∀ index cfg deps from sd args resolved srcs,
     from = Itoa index →
     ResolveEnvironmentReplacementList sd
       (ReplacementEnvs args (ConfigEnv cfg)) true = inl resolved →
     ResolveSources resolved RootDir = inl srcs →
     dependenciesCommand index (cfg, deps) (CopyCommand from sd) args
     = Normal (inl (cfg, deps ++ (absolute <$> srcs)), args)) ∧
  (∀ index st from sd args,
     from ≠ Itoa index →
     dependenciesCommand index st (CopyCommand from sd) args
     = Normal (inl st, args)).
Proof.
  assert (∀ index stages stage image args,
     Dependencies index (stages ++ [stage]) image args
     = bind (Dependencies index stages image)
         (λ deps args',
            onValue (app deps)
              (dependenciesStage index (stages ++ [stage]) image []
                 (length stages) stage args'))
         args) as Hsnoc.
  { intros index stages stage image args. unfold Dependencies.
    rewrite dependenciesLoop_snoc. unfold bind.
    rewrite dependenciesLoop_app_l by (simpl; lia).
    destruct (dependenciesLoop index stages image [] 0 stages args)
      as [[[deps|err] args']|]; [|done..].
    simpl. apply dependenciesStage_acc. }
  split_and!.
  - intros index stages image args deps args' Hdeps.
    apply dependenciesLoop_groups in Hdeps as (groups & -> & Hgroups).
    by exists groups.
  - exact Hsnoc.
  - intros index stages stage image args deps args' more args'' Hdeps Hmore.
    rewrite Hsnoc. unfold bind. rewrite Hdeps, Hmore. done.
  - intros index cfg deps from sd args resolved srcs -> Hres Hsrcs.
    simpl. rewrite decide_False by naive_solver.
    unfold bind, getArgs, try, ret. by rewrite Hres, Hsrcs.
  - intros index [cfg deps] from sd args Hfrom. simpl.
    by rewrite decide_True.
Qed.

End dependencies.

Lemma Dependencies_appends_twice :
  laterCopies 0 stagesRepeat
  = [ ["/out/app"; "/usr/bin/app"]; ["/out/app"; "lib"; "/opt/"] ] ∧
  ∃ groups,
    ["/out/app"; "/out/app"; "/lib"] = concat groups ∧
    Forall2 resolvesTo (laterCopies 0 stagesRepeat) groups.
Proof.
  split; [reflexivity|].
  destruct (@Dependencies_appends plainCollaborators) as (Hgroups & _).
  apply (Hgroups 0%Z stagesRepeat tt [] ["/out/app"; "/out/app"; "/lib"]
           [("V", None)]).
  vm_compute. reflexivity.
Defined.

(** Two later stages copy [/out/app] from the first stage: the path comes
    twice in the list. *)
Lemma Dependencies_repeats_path :
  Dependencies 0 stagesTwice tt [] = Normal (inl ["/out/app"; "/out/app"], []) ∧
  ¬ NoDup ["/out/app"; "/out/app"].
Proof.
  split; [vm_compute; reflexivity|].
  intros [Hnotin _]%NoDup_cons. apply Hnotin. by left.
Qed.

(** Scenario S3: the analysis of stage 0 gives [/out/app]. *)
Example Dependencies_S3 :
  Dependencies 0 (ResolveStages stagesS3) tt [] = Normal (inl ["/out/app"], []).
Proof. vm_compute. reflexivity. Qed.

(** A negative index panics as soon as there is a stage to look at. *)
Example Dependencies_negative_index :
  Dependencies (-1) stagesS3 tt [] = Panic.
Proof. vm_compute. reflexivity. Qed.

End dockerfile_facts.

(** * More on the layered map *)

Module snapshot_more.
Import snapshot snapshot_facts.

Section reads.
Context {World : Type}.
Implicit Types l : @LayeredMap World.

Lemma getFrom_app (pre post : list (gmap string string)) (s : string) (n : nat) :
  (n ≤ length pre)%nat → getFrom (pre ++ post) s n = getFrom pre s n.
Proof.
  induction n as [|n IH]; intros Hn; simpl; [done|].
  rewrite lookup_app_l by lia. rewrite IH by lia. done.
Qed.

(** [Get] looks at the top layer first. *)
Lemma getFrom_snoc (pre : list (gmap string string)) (top : gmap string string)
    (s : string) :
  getFrom (pre ++ [top]) s (length (pre ++ [top]))
  = match top !! s with
    | Some v => (v, true)
    | None => getFrom pre s (length pre)
    end.
Proof.
  rewrite length_app. simpl.
  replace (length pre + 1) with (S (length pre)) by lia. simpl.
  rewrite list_lookup_middle by done.
  destruct (top !! s); [done|]. by apply getFrom_app.
Qed.

Lemma consistent_snoc l pre top :
  consistent l → layers l = pre ++ [top] →
  ∃ wpre wtop, whiteouts l = wpre ++ [wtop] ∧ length pre = length wpre ∧
    layerStack l = zip pre wpre ++ [(top, wtop)].
Proof.
  intros [Hlen _] Hl. rewrite Hl, length_app in Hlen. simpl in Hlen.
  destruct (whiteouts l) as [|w ws _] eqn:Hw using rev_ind; [simpl in Hlen; lia|].
  rewrite length_app in Hlen. simpl in Hlen.
  exists ws, w. split_and!; [done|lia|].
  unfold layerStack. rewrite Hl, Hw. apply layerStack_snoc. lia.
Qed.

Lemma Add_ok_inv l l' (w : World) (s : string) (calls : list string) :
  Add w s l = Normal (calls, None, l') →
  ∃ v pre top, cachedHash l w s = (calls, inl v) ∧ layers l = pre ++ [top] ∧
    l' = setLayers (pre ++ [<[s := v]> top]) (setValid false l).
Proof.
  unfold Add.
  assert (cachedHash (setValid false l) w s = cachedHash l w s) as -> by done.
  destruct (cachedHash l w s) as [calls' [v|err]]; simpl; [|done].
  destruct (layers l) as [|top pre _] eqn:Hl using rev_ind; [done|].
  rewrite updTop_snoc. simpl. intros [= <- <-]. by exists v, pre, top.
Qed.

Lemma AddWhiteout_inv l l' (s : string) (r : option error) :
  AddWhiteout s l = Normal (r, l') →
  r = None ∧
  ∃ wpre wtop, whiteouts l = wpre ++ [wtop] ∧
    l' = setWhiteouts (wpre ++ [{[s]} ∪ wtop]) (setValid false l).
Proof.
  unfold AddWhiteout. simpl.
  destruct (whiteouts l) as [|wtop wpre _] using rev_ind; [done|].
  rewrite updTop_snoc. simpl. intros [= <- <-]. eauto.
Qed.

(** A path is in the flattened image when some layer adds it and neither
    that layer nor a later one deletes it. *)
Lemma FlattenedImage_present (st : list Layer) (p : string) :
  is_Some (FlattenedImage st !! p) ↔
  ∃ (i : nat) a d, st !! i = Some (a, d) ∧ is_Some (a !! p) ∧
    ∀ (j : nat) a' d', (i ≤ j)%nat → st !! j = Some (a', d') → p ∉ d'.
Proof.
  induction st as [|[a d] st IH] using rev_ind.
  - unfold FlattenedImage. simpl. rewrite lookup_empty. split.
    + by intros [? ?].
    + by intros (i & a & d & Hi & _).
  - rewrite FlattenedImage_snoc_lookup. split.
    + destruct (decide (p ∈ d)) as [Hd|Hd]; [by intros [? ?]|].
      destruct (a !! p) as [v|] eqn:Ha.
      * intros _. exists (length st), a, d.
        split_and!; [by rewrite list_lookup_middle|by rewrite Ha|].
        intros j a' d' Hj Hlook.
        assert (j = length st) as ->.
        { apply lookup_lt_Some in Hlook. rewrite length_app in Hlook.
          simpl in Hlook. lia. }
        rewrite list_lookup_middle in Hlook by done. by injection Hlook as <- <-.
      * intros (i & a0 & d0 & Hi & Ha0 & Hlater)%IH.
        exists i, a0, d0. split_and!; [|done|].
        { rewrite lookup_app_l; [done|]. by eapply lookup_lt_Some. }
        intros j a' d' Hj Hlook.
        destruct (decide (j < length st)%nat) as [Hlt|Hge].
        { rewrite lookup_app_l in Hlook by done. by eapply Hlater. }
        assert (j = length st) as ->.
        { apply lookup_lt_Some in Hlook. rewrite length_app in Hlook.
          simpl in Hlook. lia. }
        rewrite list_lookup_middle in Hlook by done. by injection Hlook as <- <-.
    + intros (i & a0 & d0 & Hi & Ha0 & Hlater).
      assert (i < length (st ++ [(a, d)]))%nat as Hlt by by eapply lookup_lt_Some.
      rewrite length_app in Hlt. simpl in Hlt.
      assert (p ∉ d) as Hd.
      { apply (Hlater (length st) a d); [lia|]. by rewrite list_lookup_middle. }
      rewrite decide_False by done.
      destruct (a !! p) as [v|] eqn:Ha; [by eexists|].
      apply IH. assert (i ≠ length st) as Hne.
      { intros ->. rewrite list_lookup_middle in Hi by done.
        injection Hi as <- <-. rewrite Ha in Ha0. by destruct Ha0. }
      exists i, a0, d0. split_and!; [|done|].
      { unfold Layer in *. rewrite lookup_app_l in Hi by lia. done. }
      intros j a' d' Hj Hlook. apply (Hlater j a' d'); [done|].
      rewrite lookup_app_l; [done|]. by eapply lookup_lt_Some.
Qed.

(** The hash of a path in the flattened image is the one [Get] finds. *)
Lemma FlattenedImage_getFrom (st : list Layer) (p v : string) :
  FlattenedImage st !! p = Some v →
  getFrom (st.*1) p (length (st.*1)) = (v, true).
Proof.
  induction st as [|[a d] st IH] using rev_ind; [done|].
  rewrite FlattenedImage_snoc_lookup, fmap_app. simpl.
  rewrite getFrom_snoc. case_decide; [done|].
  destruct (a !! p); [by intros [= ->]|]. apply IH.
Qed.

Lemma consistent_layers l : consistent l → (layerStack l).*1 = layers l.
Proof. intros [Hlen _]. unfold layerStack. apply fst_zip. lia. Qed.

End reads.

(** ** The hash cache *)

(** When the hasher succeeds on a path and a layer is open,
    [CheckFileChange] followed by [Add] of the same path calls the hasher
    once in all: [Add] takes the hash from the cache, whatever the hasher
    would say by then, and records it in the top layer. *)
Theorem CheckFileChange_then_Add {World : Type} (l : @LayeredMap World)
    (w w' : World) (p v : string) (pre : list (gmap string string))
    (top : gmap string string) :
  hasher l w p = inl v →
  layers l = pre ++ [top] →
  (CheckFileChange w p l).1.1 = [p] ∧
  ∃ l', Add w' p (CheckFileChange w p l).2 = Normal ([], None, l') ∧
    layers l' = pre ++ [<[p := v]> top] ∧
    Get l' p = (v, true).
Proof.
  intros Hh Hl. unfold CheckFileChange. rewrite Hh. simpl.
  set (l1 := setLayerHashCache (<[p:=v]> (layerHashCache l)) l).
  assert ((match currentImage l !! p with
           | Some oldV =>
               if decide (v = oldV) then ([p], (false, None), l1)
               else ([p], (true, None), l1)
           | None => ([p], (true, None), l1)
           end).2 = l1 ∧
          (match currentImage l !! p with
           | Some oldV =>
               if decide (v = oldV) then ([p], (false, None), l1)
               else ([p], (true, None), l1)
           | None => ([p], (true, None), l1)
           end).1.1 = [p]) as [-> ->].
  { destruct (currentImage l !! p); [case_decide|]; done. }
  split; [done|].
  unfold Add, cachedHash. simpl. rewrite lookup_insert_eq, Hl, updTop_snoc.
  simpl. eexists. split; [done|]. simpl. split; [done|].
  unfold Get. simpl. by rewrite getFrom_snoc, lookup_insert_eq.
Qed.

Lemma CheckFileChange_then_Add_opened :
  (CheckFileChange fsF "/f" mapOpened).1.1 = ["/f"] ∧
  ∃ l', Add ∅ "/f" (CheckFileChange fsF "/f" mapOpened).2
        = Normal ([], None, l') ∧
    layers l' = [] ++ [<["/f" := "h"]> ∅] ∧
    Get l' "/f" = ("h", true).
Proof.
  apply (CheckFileChange_then_Add mapOpened fsF ∅ "/f" "h" [] ∅); reflexivity.
Defined.

(** ** Adding and looking up *)

(** After an [Add] that succeeds, [Get] on the path gives the hash just
    recorded (that of the cache, or else the hasher's), and [Get] on any
    other path answers as before. *)
Theorem Add_then_Get {World : Type} (l l' : @LayeredMap World) (w : World)
    (s : string) (calls : list string) :
  Add w s l = Normal (calls, None, l') →
  ∃ v, (cachedHash l w s).2 = inl v ∧
    Get l' s = (v, true) ∧
    ∀ s', s' ≠ s → Get l' s' = Get l s'.
Proof.
  intros (v & pre & top & Hcache & Hl & ->)%Add_ok_inv.
  exists v. rewrite Hcache. split; [done|]. unfold Get. simpl. split.
  - by rewrite getFrom_snoc, lookup_insert_eq.
  - intros s' Hne. rewrite Hl, !getFrom_snoc. by rewrite lookup_insert_ne.
Qed.

Lemma Add_then_Get_opened :
  ∃ v, (cachedHash mapOpened fsF "/f").2 = inl v ∧
    Get mapF "/f" = (v, true) ∧
    ∀ s', s' ≠ "/f" → Get mapF s' = Get mapOpened s'.
Proof.
  apply (Add_then_Get mapOpened mapF fsF "/f" ["/f"]). reflexivity.
Defined.

(** ** Whiteouts *)

(** On a reachable map [AddWhiteout] panics when no layer was ever opened;
    otherwise it returns no error, puts the path into the deleted set of the
    top layer and leaves the added layers and the hash cache alone. *)
Theorem AddWhiteout_outcomes {World : Type} (l : @LayeredMap World) (s : string) :
  reachable l →
  match layers l with
  | [] => AddWhiteout s l = Panic
  | _ =>
      ∃ wpre wtop, whiteouts l = wpre ++ [wtop] ∧
        AddWhiteout s l
        = Normal (None, setWhiteouts (wpre ++ [{[s]} ∪ wtop]) (setValid false l))
  end.
Proof.
  intros [Hlen _]%reachable_consistent.
  destruct (layers l) as [|a ls] eqn:Hl.
  - destruct (whiteouts l) eqn:Hw; [|done]. unfold AddWhiteout. simpl.
    by rewrite Hw.
  - destruct (whiteouts l) as [|wtop wpre _] eqn:Hw using rev_ind; [done|].
    exists wpre, wtop. split; [done|]. unfold AddWhiteout. simpl.
    by rewrite Hw, updTop_snoc.
Qed.

Lemma AddWhiteout_outcomes_new :
  AddWhiteout "/a" newTableMap = Panic.
Proof.
  apply (AddWhiteout_outcomes newTableMap "/a").
  exists tableHasher, tableHasher, []. reflexivity.
Defined.

(** A whiteout in the open layer hides the path from the current paths even
    when the path is added to that same layer afterwards, while [Get] finds
    the added hash. *)
Theorem whiteout_hides_later_add {World : Type} (l l1 l2 : @LayeredMap World)
    (w : World) (s : string) (r : option error) (calls : list string) :
  reachable l →
  AddWhiteout s l = Normal (r, l1) →
  Add w s l1 = Normal (calls, None, l2) →
  ∃ paths l3, GetCurrentPaths l2 = Normal (paths, l3) ∧
    (s ∉ paths) ∧ (Get l2 s).2 = true.
Proof.
  intros Hreach Hwh Hadd.
  assert (reachable l2) as Hreach2.
  { apply (reachable_runCalls [CallAddWhiteout s; CallAdd w s] l); [done|].
    simpl. rewrite Hwh. simpl. by rewrite Hadd. }
  pose proof (reachable_consistent l2 Hreach2) as Hc.
  destruct (GetCurrentPaths_consistent l2 Hc) as (l3 & Hget & _).
  apply AddWhiteout_inv in Hwh as (_ & wpre & wtop & Hw & ->).
  apply Add_ok_inv in Hadd as (v & pre & top & _ & Hl & ->).
  eexists _, l3. split; [exact Hget|]. split.
  - destruct (consistent_snoc _ _ _ Hc eq_refl) as (wpre' & wtop' & Hw' & _ & ->).
    simpl in Hw'. apply app_inj_tail in Hw' as [_ <-].
    rewrite not_elem_of_dom, FlattenedImage_snoc_lookup.
    rewrite decide_True; [done|set_solver].
  - unfold Get. simpl. by rewrite getFrom_snoc, lookup_insert_eq.
Qed.

Lemma whiteout_hides_later_add_opened :
  ∃ paths l3,
    GetCurrentPaths
      (setLayers ([] ++ [<["/f" := "h"]> ∅])
         (setValid false
            (setWhiteouts ([] ++ [{["/f"]} ∪ ∅]) (setValid false mapOpened))))
    = Normal (paths, l3) ∧
    ("/f" ∉ paths) ∧
    (Get (setLayers ([] ++ [<["/f" := "h"]> ∅])
            (setValid false
               (setWhiteouts ([] ++ [{["/f"]} ∪ ∅]) (setValid false mapOpened))))
         "/f").2 = true.
Proof.
  apply (whiteout_hides_later_add mapOpened
           (setWhiteouts ([] ++ [{["/f"]} ∪ ∅]) (setValid false mapOpened)) _
           fsF "/f" None ["/f"]).
  - exists tableHasher, tableHasher, [CallSnapshot]. vm_compute. reflexivity.
  - vm_compute. reflexivity.
  - vm_compute. reflexivity.
Defined.

(** ** The current paths *)

(** On a reachable map a path is among the current paths exactly when some
    layer adds it and neither that layer nor a later one deletes it. *)
Theorem GetCurrentPaths_latest_mention {World : Type} (l : @LayeredMap World) :
  reachable l →
  ∃ paths l', GetCurrentPaths l = Normal (paths, l') ∧
    ∀ p, p ∈ paths ↔
      ∃ (i : nat) a, layers l !! i = Some a ∧ is_Some (a !! p) ∧
        ∀ (j : nat) d, (i ≤ j)%nat → whiteouts l !! j = Some d → p ∉ d.
Proof.
  intros Hc%reachable_consistent.
  destruct (GetCurrentPaths_consistent l Hc) as (l' & Hget & _).
  eexists _, l'. split; [exact Hget|]. intros p.
  rewrite elem_of_dom, FlattenedImage_present. unfold layerStack.
  destruct Hc as [Hlen _]. split.
  - intros (i & a & d & [Hi Hd]%lookup_zip_Some & Ha & Hlater).
    exists i, a. split_and!; [done..|]. intros j d' Hj Hd'.
    destruct (lookup_lt_is_Some_2 (layers l) j) as [a' Ha'].
    { apply lookup_lt_Some in Hd'. lia. }
    apply (Hlater j a' d'); [done|]. by apply lookup_zip_Some.
  - intros (i & a & Hi & Ha & Hlater).
    destruct (lookup_lt_is_Some_2 (whiteouts l) i) as [d Hd].
    { apply lookup_lt_Some in Hi. lia. }
    exists i, a, d. split_and!; [by apply lookup_zip_Some|done|].
    intros j a' d' Hj [_ Hd']%lookup_zip_Some. by apply (Hlater j).
Qed.

Lemma GetCurrentPaths_latest_mention_S1 :
  ∃ paths l', GetCurrentPaths mapS1 = Normal (paths, l') ∧
    ∀ p, p ∈ paths ↔
      ∃ (i : nat) a, layers mapS1 !! i = Some a ∧ is_Some (a !! p) ∧
        ∀ (j : nat) d, (i ≤ j)%nat → whiteouts mapS1 !! j = Some d → p ∉ d.
Proof.
  apply (GetCurrentPaths_latest_mention mapS1).
  exists tableHasher, tableHasher, callsS1. vm_compute. reflexivity.
Defined.

(** On a reachable map [UpdateCurrentImage] returns, and every path of the
    image it stores has there the hash that [Get] finds. *)
Theorem Get_agrees_with_image {World : Type} (l : @LayeredMap World) :
  reachable l →
  ∃ l', UpdateCurrentImage l = Normal l' ∧
    ∀ p v, currentImage l' !! p = Some v → Get l p = (v, true).
Proof.
  intros Hc%reachable_consistent.
  destruct (UpdateCurrentImage_consistent l Hc)
    as (l' & Hupd & _ & _ & _ & _ & _ & _ & Hcur).
  exists l'. split; [done|]. intros p v. rewrite Hcur.
  intros Hflat%FlattenedImage_getFrom.
  rewrite consistent_layers in Hflat by done. done.
Qed.

Lemma Get_agrees_with_image_S1 :
  ∃ l', UpdateCurrentImage mapS1 = Normal l' ∧
    ∀ p v, currentImage l' !! p = Some v → Get mapS1 p = (v, true).
Proof.
  apply (Get_agrees_with_image mapS1).
  exists tableHasher, tableHasher, callsS1. vm_compute. reflexivity.
Defined.

(** ** Opening a layer and reading *)

(** [Snapshot] on a reachable map changes no answer of [Get] and leaves the
    set of current paths as it is. *)
Theorem Snapshot_preserves_reads {World : Type} (l : @LayeredMap World) :
  reachable l →
  ∃ l', Snapshot l = Normal l' ∧
    (∀ p, Get l' p = Get l p) ∧
    ∃ paths l1 l1',
      GetCurrentPaths l = Normal (paths, l1) ∧
      GetCurrentPaths l' = Normal (paths, l1').
Proof.
  intros Hreach. pose proof (reachable_consistent l Hreach) as Hc.
  destruct (Snapshot_consistent l Hc)
    as (l' & Hsnap & Hl & _ & _ & _ & _ & _ & _ & Hfl).
  exists l'. split; [done|]. split.
  - intros p. unfold Get. rewrite Hl, getFrom_snoc. by rewrite lookup_empty.
  - assert (reachable l') as Hreach'.
    { apply (reachable_runCalls [CallSnapshot] l); [done|]. simpl.
      by rewrite Hsnap. }
    destruct (GetCurrentPaths_consistent l Hc) as (l1 & H1 & _).
    destruct (GetCurrentPaths_consistent l' (reachable_consistent l' Hreach'))
      as (l1' & H1' & _).
    rewrite Hfl in H1'. eauto.
Qed.

Lemma Snapshot_preserves_reads_S1 :
  ∃ l', Snapshot mapS1 = Normal l' ∧
    (∀ p, Get l' p = Get mapS1 p) ∧
    ∃ paths l1 l1',
      GetCurrentPaths mapS1 = Normal (paths, l1) ∧
      GetCurrentPaths l' = Normal (paths, l1').
Proof.
  apply (Snapshot_preserves_reads mapS1).
  exists tableHasher, tableHasher, callsS1. vm_compute. reflexivity.
Defined.

(** A path added to the open layer, and not deleted there, is reported
    unchanged by [CheckFileChange] once the next layer is opened, exactly
    when the hasher still gives the hash that was recorded. *)
Theorem CheckFileChange_after_Snapshot {World : Type}
    (l l1 : @LayeredMap World) (w : World) (s : string) (calls : list string) :
  reachable l →
  Add w s l = Normal (calls, None, l1) →
  (∀ wtop, last (whiteouts l) = Some wtop → s ∉ wtop) →
  ∃ l2 v, Snapshot l1 = Normal l2 ∧
    Get l1 s = (v, true) ∧
    ∀ w' v', hasher l w' s = inl v' →
      (CheckFileChange w' s l2).1 = ([s], (bool_decide (v' ≠ v), None)).
Proof.
  intros Hreach Hadd Hwtop.
  assert (reachable l1) as Hreach1.
  { apply (reachable_runCalls [CallAdd w s] l); [done|]. simpl. by rewrite Hadd. }
  pose proof (reachable_consistent l1 Hreach1) as Hc1.
  destruct (Snapshot_consistent l1 Hc1)
    as (l2 & Hsnap & _ & _ & _ & Hh & _ & _ & Hcur & _).
  apply Add_ok_inv in Hadd as (v & pre & top & _ & Hl & ->).
  exists l2, v. split; [done|]. split.
  { unfold Get. simpl. by rewrite getFrom_snoc, lookup_insert_eq. }
  intros w' v' Hv'.
  rewrite (CheckFileChange_stored l2 w' s v') by (by rewrite Hh).
  rewrite Hcur.
  destruct (consistent_snoc _ _ _ Hc1 eq_refl) as (wpre & wtop & Hw & _ & ->).
  simpl in Hw. rewrite FlattenedImage_snoc_lookup, lookup_insert_eq.
  rewrite decide_False.
  - do 2 f_equal. apply bool_decide_ext. naive_solver.
  - apply Hwtop. by rewrite Hw, last_snoc.
Qed.

Lemma CheckFileChange_after_Snapshot_opened :
  ∃ l2 v, Snapshot mapF = Normal l2 ∧
    Get mapF "/f" = (v, true) ∧
    ∀ w' v', hasher mapOpened w' "/f" = inl v' →
      (CheckFileChange w' "/f" l2).1 = (["/f"], (bool_decide (v' ≠ v), None)).
Proof.
  apply (CheckFileChange_after_Snapshot mapOpened mapF fsF "/f" ["/f"]).
  - exists tableHasher, tableHasher, [CallSnapshot]. vm_compute. reflexivity.
  - vm_compute. reflexivity.
  - intros wtop [= <-]. apply not_elem_of_empty.
Defined.

End snapshot_more.

(** * More on the stages *)

Module dockerfile_more.
Import dockerfile dockerfile_facts.

Section resolve.
Implicit Types m : gmap string string.

Lemma resolveCommand_sameButFrom m cmd :
  commandSameButFrom cmd (resolveCommand m cmd).
Proof.
  destruct cmd as [env|key value|from sd|name]; simpl; try done.
  case_decide; [|done]. by destruct (m !! from).
Qed.

(** Where an entry of the table comes from. *)
Lemma registered_origin i m stages from v :
  registered i m stages !! from = Some v →
  m !! from = Some v ∨
  ∃ (k : nat) stage, stages !! k = Some stage ∧ Name stage = from ∧
    v = Itoa (Z.of_nat (i + k)).
Proof.
  revert i m. induction stages as [|st rest IH]; intros i m; simpl; [by left|].
  intros [Hm|(k & stage & Hk & Hname & ->)]%IH.
  - unfold register in Hm. case_decide; [|by left].
    apply lookup_insert_Some in Hm as [[<- <-]|[_ Hm]]; [|by left].
    right. exists 0, st. by rewrite Nat.add_0_r.
  - right. exists (S k), stage. split_and!; [done..|].
    by replace (i + S k) with (S i + k) by lia.
Qed.

Lemma registered_mono i m stages from :
  is_Some (m !! from) → is_Some (registered i m stages !! from).
Proof.
  revert i m. induction stages as [|st rest IH]; intros i m Hm; simpl; [done|].
  apply IH. unfold register. case_decide; [|done].
  rewrite lookup_insert_is_Some. destruct (decide (Name st = from)); auto.
Qed.

Lemma registered_is_Some i m stages stage :
  stage ∈ stages → numeralStart (Name stage) = false →
  is_Some (registered i m stages !! Name stage).
Proof.
  revert i m. induction stages as [|st rest IH]; intros i m Hin Hname;
    [by apply elem_of_nil in Hin|].
  simpl. apply elem_of_cons in Hin as [->|Hin]; [|by apply IH].
  apply registered_mono. unfold register.
  rewrite decide_True by by apply not_numeral_Itoa.
  rewrite lookup_insert_eq. by eexists.
Qed.

Lemma registered_namesToNumerals i m stages :
  parsedNames stages = true → namesToNumerals m →
  namesToNumerals (registered i m stages).
Proof.
  revert i m. induction stages as [|st rest IH]; intros i m Hnames Hm; [done|].
  simpl in *. apply andb_true_iff in Hnames as [Hname Hrest].
  apply IH; [done|]. apply register_namesToNumerals; [|done].
  by apply negb_true_iff.
Qed.

Lemma parsedNames_take n stages :
  parsedNames stages = true → parsedNames (take n stages) = true.
Proof.
  revert n. induction stages as [|st rest IH]; intros [|n] Hnames; simpl in *;
    try done.
  apply andb_true_iff in Hnames as [-> Hrest]. simpl. by apply IH.
Qed.

End resolve.

(** ** What the resolution changes *)

(** Whatever the stages, [ResolveStages] keeps every stage in place with its
    name, its base and its commands, and changes at most the [From] of
    copies; a [From] that changes becomes the numeral of the index of a
    stage of that name, met at or before the stage of the copy. *)
Theorem ResolveStages_only_From (stages : list Stage) :
  Forall2 stageSameButFrom stages (ResolveStages stages) ∧
  ∀ (i n : nat) stage' from' sd,
    ResolveStages stages !! i = Some stage' →
    Commands stage' !! n = Some (CopyCommand from' sd) →
    ∃ stage from, stages !! i = Some stage ∧
      Commands stage !! n = Some (CopyCommand from sd) ∧
      (from' = from ∨
       ∃ (k : nat) named, (k ≤ i)%nat ∧ stages !! k = Some named ∧
         Name named = from ∧ from' = Itoa (Z.of_nat k)).
Proof.
  split.
  - apply Forall2_same_length_lookup. split.
    { unfold ResolveStages. by rewrite resolveFrom_length. }
    intros i stage stage' Hi. unfold ResolveStages.
    rewrite (resolveFrom_lookup 0 ∅ stages i stage Hi). intros [= <-].
    split_and!; [done..|]. simpl. apply Forall2_fmap_r, Forall_Forall2_diag.
    apply Forall_forall. intros cmd _. apply resolveCommand_sameButFrom.
  - intros i n stage' from' sd Hi Hn.
    destruct (lookup_lt_is_Some_2 stages i) as [stage Hstage].
    { apply lookup_lt_Some in Hi. unfold ResolveStages in Hi.
      by rewrite resolveFrom_length in Hi. }
    unfold ResolveStages in Hi.
    rewrite (resolveFrom_lookup 0 ∅ stages i stage Hstage) in Hi.
    injection Hi as <-. simpl in Hn.
    rewrite list_lookup_fmap in Hn.
    destruct (Commands stage !! n) as [cmd|] eqn:Hcmd; [|done]. simpl in Hn.
    injection Hn as Hn.
    destruct cmd as [env|key value|from sd0|name]; simpl in Hn; try done.
    exists stage, from. case_decide as Hfrom.
    + destruct (registered 0 ∅ (take (S i) stages) !! from) as [val|] eqn:Hval.
      * injection Hn as <- <-. split_and!; [done..|]. right.
        apply registered_origin in Hval
          as [Hval|(k & named & [Hk Hlt]%lookup_take_Some & Hname & ->)];
          [by rewrite lookup_empty in Hval|].
        exists k, named. split_and!; [lia|done..].
      * injection Hn as <- <-. split_and!; [done..|]. by left.
    + injection Hn as <- <-. split_and!; [done..|]. by left.
Qed.

(** On the stages of a parsed script the resolution is complete: afterwards
    no copy has as its [From] the name, if not empty, of its own stage or
    of a stage before it. *)
Theorem ResolveStages_resolved (stages : list Stage) :
  parsedNames stages = true →
  ∀ (i n k : nat) stage' from sd named,
    ResolveStages stages !! i = Some stage' →
    Commands stage' !! n = Some (CopyCommand from sd) →
    from ≠ "" → (k ≤ i)%nat → stages !! k = Some named →
    Name named ≠ from.
Proof.
  intros Hnames i n k stage' from sd named Hi Hn Hfrom Hk Hnamed Hname.
  destruct (lookup_lt_is_Some_2 stages i) as [stage Hstage].
  { apply lookup_lt_Some in Hi. unfold ResolveStages in Hi.
    by rewrite resolveFrom_length in Hi. }
  unfold ResolveStages in Hi.
  rewrite (resolveFrom_lookup 0 ∅ stages i stage Hstage) in Hi.
  injection Hi as <-. simpl in Hn. rewrite list_lookup_fmap in Hn.
  destruct (Commands stage !! n) as [cmd|] eqn:Hcmd; [|done]. simpl in Hn.
  injection Hn as Hn.
  set (m := registered 0 ∅ (take (S i) stages)) in *.
  assert (namesToNumerals m) as Hm.
  { apply registered_namesToNumerals; [by apply parsedNames_take|].
    intros ? ?. by rewrite lookup_empty. }
  assert (numeralStart from = false) as Hnum.
  { rewrite <-Hname. by eapply parsedNames_lookup. }
  assert (is_Some (m !! from)) as [val Hval].
  { rewrite <-Hname. apply registered_is_Some; [|by rewrite Hname].
    apply list_elem_of_lookup. exists k. apply lookup_take_Some. split; [done|lia]. }
  destruct cmd as [env|key value|from0 sd0|name]; simpl in Hn; try done.
  case_decide as Hfrom0.
  - destruct (m !! from0) as [val0|] eqn:Hval0.
    + injection Hn as -> ->. apply Hm in Hval0 as [_ Hnum0]. congruence.
    + injection Hn as -> ->. congruence.
  - injection Hn as -> ->. naive_solver.
Qed.

Lemma ResolveStages_resolved_S3 :
  parsedNames stagesS3 = true ∧
  Name (mkStage "builder" "base" [ OtherCommand "RUN" ]) ≠ "0".
Proof.
  split; [reflexivity|].
  apply (ResolveStages_resolved stagesS3 eq_refl 1 0 0
           (mkStage "" "scratch" [ CopyCommand "0" ["/out/app"; "/usr/bin/app"] ])
           "0" ["/out/app"; "/usr/bin/app"]
           (mkStage "builder" "base" [ OtherCommand "RUN" ]));
    [reflexivity|reflexivity|discriminate|lia|reflexivity].
Defined.

(** ** The stages the analysis looks at *)

Section dependencies.
Context `{Collaborators}.

(** Stages up to [index] are passed over. *)
Lemma dependenciesLoop_skip index stages image rest :
  ∀ (k : nat) deps args, (Z.of_nat (k + length rest) ≤ index + 1)%Z →
    dependenciesLoop index stages image deps k rest args
    = Normal (inl deps, args).
Proof.
  induction rest as [|stage rest IH]; intros k deps args Hk; [done|].
  simpl in Hk. cbn [dependenciesLoop]. unfold bind, dependenciesStage.
  rewrite decide_True by lia. unfold ret. apply IH. lia.
Qed.

Lemma dependenciesLoop_app index stages image pre post :
  ∀ (k : nat) deps args,
    dependenciesLoop index stages image deps k (pre ++ post) args
    = bind (dependenciesLoop index stages image deps k pre)
        (λ d, dependenciesLoop index stages image d (k + length pre) post) args.
Proof.
  induction pre as [|stage pre IH]; intros k deps args.
  - simpl. by rewrite Nat.add_0_r.
  - cbn [app dependenciesLoop length]. unfold bind. cbn beta.
    destruct (dependenciesStage index stages image deps k stage args)
      as [[[d|err] args1]|]; [|done..].
    rewrite IH. unfold bind.
    by replace (S k + length pre) with (k + S (length pre)) by lia.
Qed.

(** A later stage looks at the stage at [index] for its name only. *)
Lemma dependenciesStage_current index stages stages' image deps k stage args :
  Name <$> stages !! Z.to_nat index = Name <$> stages' !! Z.to_nat index →
  dependenciesStage index stages image deps k stage args
  = dependenciesStage index stages' image deps k stage args.
Proof.
  intros Hname. unfold dependenciesStage. case_decide; [done|].
  unfold bind at 1 5, stageAt. case_decide; [done|].
  destruct (stages !! Z.to_nat index) as [cur|],
    (stages' !! Z.to_nat index) as [cur'|]; simpl in Hname; try done.
  injection Hname as Hname. unfold ret.
  assert (sourceImage stage cur image = sourceImage stage cur' image) as ->;
    [|done].
  unfold sourceImage. by rewrite Hname.
Qed.

Lemma dependenciesLoop_current index stages stages' image rest :
  Name <$> stages !! Z.to_nat index = Name <$> stages' !! Z.to_nat index →
  ∀ (k : nat) deps args,
    dependenciesLoop index stages image deps k rest args
    = dependenciesLoop index stages' image deps k rest args.
Proof.
  intros Hname. induction rest as [|stage rest IH]; intros k deps args; [done|].
  cbn [dependenciesLoop]. unfold bind.
  rewrite (dependenciesStage_current index stages stages') by done.
  destruct (dependenciesStage index stages' image deps k stage args)
    as [[[d|err] args1]|]; [|done..].
  apply IH.
Qed.

(** What every command keeps, the loops keep. *)
Lemma foldM_commands_invariant index (P : list string → Prop) (Q : Command → Prop) :
  (∀ cfg deps cmd args cfg' deps' args',
     Q cmd → P deps →
     dependenciesCommand index (cfg, deps) cmd args
     = Normal (inl (cfg', deps'), args') → P deps') →
  ∀ cmds cfg deps args cfg' deps' args',
    Forall Q cmds → P deps →
    foldM (dependenciesCommand index) (cfg, deps) cmds args
    = Normal (inl (cfg', deps'), args') → P deps'.
Proof.
  intros Hstep cmds.
  induction cmds as [|cmd cmds IH]; intros cfg deps args cfg' deps' args' HQ HP.
  - simpl. unfold ret. by intros [= <- <- <-].
  - apply Forall_cons in HQ as [Hcmd HQ]. cbn [foldM]. unfold bind.
    destruct (dependenciesCommand index (cfg, deps) cmd args)
      as [[[[cfg1 deps1]|err] args1]|] eqn:Hone; [|done..].
    apply IH; [done|]. by eapply Hstep.
Qed.

Lemma dependenciesLoop_invariant index stages image
    (P : list string → Prop) (Q : Command → Prop) :
  (∀ cfg deps cmd args cfg' deps' args',
     Q cmd → P deps →
     dependenciesCommand index (cfg, deps) cmd args
     = Normal (inl (cfg', deps'), args') → P deps') →
  ∀ rest (k : nat) deps args deps' args',
    Forall (λ stage, Forall Q (Commands stage)) rest → P deps →
    dependenciesLoop index stages image deps k rest args
    = Normal (inl deps', args') → P deps'.
Proof.
  intros Hstep rest.
  induction rest as [|stage rest IH]; intros k deps args deps' args' HQ HP.
  - simpl. unfold ret. by intros [= <- <-].
  - apply Forall_cons in HQ as [Hstage HQ]. cbn [dependenciesLoop].
    unfold bind at 1.
    destruct (dependenciesStage index stages image deps k stage args)
      as [[[deps1|err] args1]|] eqn:Hone; [|done..].
    apply IH; [done|]. revert Hone. unfold dependenciesStage.
    case_decide; [unfold ret; by intros [= <- <-]|].
    unfold bind at 1.
    destruct (stageAt stages index args) as [[[cur|err] args2]|]; [|done..].
    unfold bind at 1, try at 1.
    destruct (sourceImage stage cur image) as [src|err]; [|done].
    unfold bind at 1, try at 1.
    destruct (ConfigFile src) as [cfg|err]; [|done].
    unfold bind.
    destruct (foldM _ (cfg, deps) (Commands stage) args2)
      as [[[[cfg1 deps2]|err] args3]|] eqn:Hfold; [|done..].
    unfold ret. simpl. intros [= <- <-].
    by eapply (foldM_commands_invariant index P Q Hstep).
Qed.

(** When [index] is that of the last stage, or beyond, there is no later
    stage: the list is empty and the build arguments are as they were. *)
Theorem Dependencies_last_stage index stages image args :
  (Z.of_nat (length stages) ≤ index + 1)%Z →
  Dependencies index stages image args = Normal (inl [], args).
Proof. intros Hlen. unfold Dependencies. by apply dependenciesLoop_skip. Qed.

(** With a negative index the first stage looked at is a later stage, and
    the stage at [index] does not exist: the call panics, unless there is no
    stage at all. *)
Theorem Dependencies_below_zero index stages image args :
  (index < 0)%Z →
  Dependencies index stages image args
  = match stages with
    | [] => Normal (inl [], args)
    | _ => Panic
    end.
Proof.
  intros Hneg. destruct stages as [|stage rest]; [done|].
  unfold Dependencies. cbn [dependenciesLoop]. unfold bind at 1.
  unfold dependenciesStage. rewrite decide_False by lia.
  unfold bind at 1, stageAt. by rewrite decide_True.
Qed.

(** The stages up to and with the one at [index] count through the name of
    that stage only: other stages in their place, with the same name at
    [index], give the same outcome. *)
Theorem Dependencies_earlier_stages index pre pre' post image args :
  length pre = length pre' →
  (Z.of_nat (length pre) ≤ index + 1)%Z →
  Name <$> (pre ++ post) !! Z.to_nat index
  = Name <$> (pre' ++ post) !! Z.to_nat index →
  Dependencies index (pre ++ post) image args
  = Dependencies index (pre' ++ post) image args.
Proof.
  intros Hlen Hpre Hname. unfold Dependencies.
  rewrite !dependenciesLoop_app. unfold bind.
  rewrite (dependenciesLoop_skip index (pre ++ post) image pre) by (simpl; lia).
  rewrite (dependenciesLoop_skip index (pre' ++ post) image pre')
    by (simpl; lia).
  rewrite Hlen. by apply dependenciesLoop_current.
Qed.

(** Where joining onto the root gives an absolute path, every path of the
    list is absolute. *)
Theorem Dependencies_absolute index stages image args deps args' :
  (∀ p, filepathIsAbs (filepathJoin RootDir p) = true) →
  Dependencies index stages image args = Normal (inl deps, args') →
  Forall (λ d, filepathIsAbs d = true) deps.
Proof.
  intros Hjoin Hdeps.
  apply (dependenciesLoop_invariant index stages image
           (Forall (λ d, filepathIsAbs d = true)) (λ _, True))
    with (rest := stages) (k := 0) (deps := []) (args := args) (args' := args');
    [|by apply Forall_forall; intros; apply Forall_forall|done|exact Hdeps].
  intros cfg acc cmd a cfg' acc' a' _ Hacc.
  destruct cmd as [env|key value|from sd|name]; simpl.
  - unfold bind, getArgs, try, ret.
    destruct (UpdateConfigEnv _ _ _); [|done]. by intros [= _ <- _].
  - unfold bind, getArgs, setArgs, ret. by intros [= _ <- _].
  - case_decide; [unfold ret; by intros [= _ <- _]|].
    unfold bind, getArgs, try, ret.
    destruct (ResolveEnvironmentReplacementList _ _ _); [|done].
    destruct (ResolveSources _ _) as [srcs|]; [|done].
    intros [= _ <- _]. apply Forall_app. split; [done|].
    apply Forall_fmap, Forall_forall. intros src _. simpl. unfold absolute.
    destruct (filepathIsAbs src) eqn:Hsrc; [done|apply Hjoin].
  - unfold ret. by intros [= _ <- _].
Qed.

(** Where no stage holds a copy from the numeral of [index], the list is
    empty. *)
Theorem Dependencies_no_copy index stages image args deps args' :
  (∀ stage from sd, stage ∈ stages → CopyCommand from sd ∈ Commands stage →
     from ≠ Itoa index) →
  Dependencies index stages image args = Normal (inl deps, args') →
  deps = [].
Proof.
  intros Hnone Hdeps.
  apply (dependenciesLoop_invariant index stages image (λ d, d = [])
           (λ cmd, ∀ from sd, cmd = CopyCommand from sd → from ≠ Itoa index))
    with (rest := stages) (k := 0) (deps := []) (args := args) (args' := args');
    [| |done|exact Hdeps].
  - intros cfg acc cmd a cfg' acc' a' Hcmd ->.
    destruct cmd as [env|key value|from sd|name]; simpl.
    + unfold bind, getArgs, try, ret.
      destruct (UpdateConfigEnv _ _ _); [|done]. by intros [= _ <- _].
    + unfold bind, getArgs, setArgs, ret. by intros [= _ <- _].
    + rewrite decide_True by by eapply Hcmd. unfold ret. by intros [= _ <- _].
    + unfold ret. by intros [= _ <- _].
  - apply Forall_forall. intros stage Hstage. apply Forall_forall.
    intros cmd Hcmd from sd ->. by eapply Hnone.
Qed.

End dependencies.

Lemma Dependencies_last_stage_S3 :
  Dependencies 1 stagesS3Resolved tt [] = Normal (inl [], []).
Proof. apply (@Dependencies_last_stage plainCollaborators 1 stagesS3Resolved tt []). simpl. lia. Defined.

Lemma Dependencies_below_zero_S3 :
  Dependencies (-1) stagesS3Resolved tt [] = Panic.
Proof.
  apply (@Dependencies_below_zero plainCollaborators (-1) stagesS3Resolved tt []). lia.
Defined.

Lemma Dependencies_earlier_stages_S3 :
  Dependencies 0 (take 1 stagesS3Resolved ++ drop 1 stagesS3Resolved) tt []
  = Dependencies 0 (take 1 stagesS3Other ++ drop 1 stagesS3Resolved) tt [].
Proof.
  apply (@Dependencies_earlier_stages plainCollaborators 0 (take 1 stagesS3Resolved)
           (take 1 stagesS3Other) (drop 1 stagesS3Resolved) tt []).
  - reflexivity.
  - simpl. lia.
  - reflexivity.
Defined.

Lemma Dependencies_absolute_S3 :
  Forall (λ d, filepathIsAbs d = true) ["/out/app"].
Proof.
  apply (@Dependencies_absolute plainCollaborators 0 stagesS3Resolved tt [] ["/out/app"] []).
  - intros p. reflexivity.
  - vm_compute. reflexivity.
Defined.

Lemma Dependencies_no_copy_S3 :
  ∃ deps args',
    Dependencies 0 stagesElsewhere tt [] = Normal (inl deps, args') ∧
    deps = [].
Proof.
  eexists _, _. split; [vm_compute; reflexivity|].
  apply (@Dependencies_no_copy plainCollaborators 0 stagesElsewhere tt []
           [] [("V", None)]).
  - intros stage from sd Hstage Hcmd.
    repeat (apply elem_of_cons in Hstage as [->|Hstage]);
      [| |by apply elem_of_nil in Hstage]; simpl in Hcmd;
      repeat (apply elem_of_cons in Hcmd as [Hcmd|Hcmd]);
      try (by apply elem_of_nil in Hcmd); try done;
      by injection Hcmd as -> _.
  - vm_compute. reflexivity.
Defined.

End dockerfile_more.

(** * Re-parsing of commands *)

Module onbuild_facts.
Import dockerfile onbuild.

Section parse_commands.
Context {Node : Type}.
Variable parserParse : string → list Node + error.
Variable ParseCommand : Node → Command + error.

Lemma parseChildren_inl (children : list Node) :
  ∀ acc cmds,
    parseChildren ParseCommand acc children = inl cmds ↔
    ∃ more, cmds = acc ++ more ∧
      Forall2 (λ child cmd, ParseCommand child = inl cmd) children more.
Proof.
  induction children as [|child children IH]; intros acc cmds; simpl.
  - split.
    + intros [= <-]. exists []. by rewrite app_nil_r.
    + intros (more & -> & Hall). apply Forall2_nil_inv_l in Hall as ->.
      by rewrite app_nil_r.
  - destruct (ParseCommand child) as [cmd|err] eqn:Hchild.
    + rewrite IH. split.
      * intros (more & -> & Hall). exists (cmd :: more).
        rewrite <-app_assoc. split; [done|]. by constructor.
      * intros (more & -> & Hall).
        apply Forall2_cons_inv_l in Hall as (cmd' & more' & Hcmd & Hall & ->).
        rewrite Hchild in Hcmd. injection Hcmd as <-.
        exists more'. by rewrite <-app_assoc.
    + split; [done|]. intros (more & -> & Hall).
      apply Forall2_cons_inv_l in Hall as (cmd' & more' & Hcmd & _).
      congruence.
Qed.

Lemma parseChildren_inr (children : list Node) :
  ∀ acc err,
    parseChildren ParseCommand acc children = inr err ↔
    ∃ pre child post, children = pre ++ child :: post ∧
      Forall (λ c, ∃ cmd, ParseCommand c = inl cmd) pre ∧
      ParseCommand child = inr err.
Proof.
  induction children as [|child children IH]; intros acc err; simpl.
  - split; [done|]. intros (pre & c & post & Heq & _). by destruct pre.
  - destruct (ParseCommand child) as [cmd|err'] eqn:Hchild.
    + rewrite IH. split.
      * intros (pre & c & post & -> & Hpre & Hc).
        exists (child :: pre), c, post. split_and!; [done| |done].
        constructor; eauto.
      * intros (pre & c & post & Heq & Hpre & Hc).
        destruct pre as [|c0 pre]; simpl in Heq; injection Heq as <- ->.
        { congruence. }
        apply Forall_cons in Hpre as [_ Hpre]. by exists pre, c, post.
    + split.
      * intros [= <-]. by exists [], child, children.
      * intros (pre & c & post & Heq & Hpre & Hc).
        destruct pre as [|c0 pre]; simpl in Heq; injection Heq as <- ->.
        { congruence. }
        apply Forall_cons in Hpre as [[cmd Hcmd] _]. congruence.
Qed.

(** [ParseCommands] gives all the commands or none: it succeeds exactly when
    the joined lines parse and every child of the parsed text is a command,
    and then gives one command for each child, in order; it fails with the
    error of the parser, or with the error of the first child that is no
    command. *)
Theorem ParseCommands_all_or_error (cmdArray : list string) :
  (∀ cmds,
     ParseCommands parserParse ParseCommand cmdArray = inl cmds ↔
     ∃ children, parserParse (Join cmdArray newline) = inl children ∧
       Forall2 (λ child cmd, ParseCommand child = inl cmd) children cmds) ∧
  (∀ err,
     ParseCommands parserParse ParseCommand cmdArray = inr err ↔
     parserParse (Join cmdArray newline) = inr err ∨
     ∃ pre child post,
       parserParse (Join cmdArray newline) = inl (pre ++ child :: post) ∧
       Forall (λ c, ∃ cmd, ParseCommand c = inl cmd) pre ∧
       ParseCommand child = inr err).
Proof.
  unfold ParseCommands. split.
  - intros cmds.
    destruct (parserParse (Join cmdArray newline)) as [children|err].
    + rewrite parseChildren_inl. split.
      * intros (more & -> & Hall). by exists children.
      * intros (children' & [= <-] & Hall). by exists cmds.
    + split; [done|]. by intros (children & [=] & _).
  - intros err.
    destruct (parserParse (Join cmdArray newline)) as [children|err'].
    + rewrite parseChildren_inr. split.
      * intros (pre & child & post & -> & Hpre & Hchild). right.
        by exists pre, child, post.
      * intros [[=]|(pre & child & post & [= ->] & Hpre & Hchild)].
        by exists pre, child, post.
    + split.
      * intros [= <-]. by left.
      * intros [[= <-]|(pre & child & post & [=] & _)]. done.
Qed.

End parse_commands.

(** Scenario S6: the lines are joined by line feeds before they are
    parsed. *)
Example Join_S6 :
  Join ["RUN echo hi"; "COPY . /src"] newline
  = "RUN echo hi" +:+ newline +:+ "COPY . /src".
Proof. reflexivity. Qed.

End onbuild_facts.

(** * Properties of the container runtime detection *)

Module util_facts.
Import util.

Section contains.

Lemma prefix_app_l (a b s : string) :
  String.prefix (a +:+ b) s = true → String.prefix a s = true.
Proof.
  revert s. induction a as [|c a IH]; intros s; [by destruct s|].
  destruct s as [|c' s]; simpl; [done|].
  destruct (ascii_dec c c'); [apply IH|done].
Qed.

(** A text that holds a string holds every start of it. *)
Lemma Contains_app_l (s a b : string) :
  Contains s (a +:+ b) = true → Contains s a = true.
Proof.
  induction s as [|c s IH]; cbn [Contains]; unfold HasPrefix.
  - rewrite !orb_false_r. apply prefix_app_l.
  - intros [Hp|Hs]%orb_true_iff; apply orb_true_iff.
    + left. by eapply prefix_app_l.
    + right. by apply IH.
Qed.

Lemma Contains_empty (runtime : string) :
  runtime ≠ "" → Contains "" runtime = false.
Proof. by destruct runtime. Qed.

End contains.

Section proc.
Variable TrimSpace : string → string.

Lemma firstContained_spec (input : string) (runtimes : list ContainerRuntime) :
  (firstContained input runtimes = RuntimeNotFound ∧
   Forall (λ r, Contains input r = false) runtimes) ∨
  ∃ pre post,
    runtimes = pre ++ firstContained input runtimes :: post ∧
    Contains input (firstContained input runtimes) = true ∧
    Forall (λ r, Contains input r = false) pre.
Proof.
  induction runtimes as [|r runtimes IH]; simpl; [by left|].
  destruct (Contains input r) eqn:Hr.
  - right. by exists [], runtimes.
  - destruct IH as [[Hnone Hall]|(pre & post & Heq & Hfound & Hpre)].
    + left. split; [done|]. by constructor.
    + right. exists (r :: pre), post. split_and!; [by rewrite Heq at 1|done|].
      by constructor.
Qed.

Lemma firstContained_not_libvirt (input : string) :
  firstContained input ContainerRuntimes ≠ RuntimeLXCLibvirt.
Proof.
  unfold ContainerRuntimes. cbn [firstContained].
  destruct (Contains input RuntimeDocker); [done|].
  destruct (Contains input RuntimeRkt); [done|].
  destruct (Contains input RuntimeNspawn); [done|].
  destruct (Contains input RuntimeLXC) eqn:Hlxc; [done|].
  destruct (Contains input RuntimeLXCLibvirt) eqn:Hlibvirt.
  { apply (Contains_app_l input "lxc" "-libvirt") in Hlibvirt.
    unfold RuntimeLXC in Hlxc. congruence. }
  repeat case_match; done.
Qed.

Lemma firstContained_range (input : string) :
  firstContained input ContainerRuntimes = RuntimeNotFound ∨
  firstContained input ContainerRuntimes ∈ ContainerRuntimes.
Proof.
  destruct (firstContained_spec input ContainerRuntimes)
    as [[Hnone _]|(pre & post & Heq & _)]; [by left|].
  right. rewrite Heq at 2. apply elem_of_app. right. by left.
Qed.

(** What [getContainerRuntime] can answer. *)
Lemma getContainerRuntime_range (input : string) :
  getContainerRuntime TrimSpace input = RuntimeNotFound ∨
  (getContainerRuntime TrimSpace input ∈ ContainerRuntimes ∧
   getContainerRuntime TrimSpace input ≠ RuntimeLXCLibvirt).
Proof.
  unfold getContainerRuntime. case_match; [by left|].
  destruct (firstContained_range input) as [?|?]; [by left|].
  right. split; [done|apply firstContained_not_libvirt].
Qed.

Lemma getContainerRuntime_empty :
  getContainerRuntime TrimSpace "" = RuntimeNotFound.
Proof. unfold getContainerRuntime. by case_match. Qed.

(** [getContainerRuntime] answers with the first runtime of the list that
    the input contains: when it answers with a runtime, the input, which
    is not blank, contains it and contains none of the runtimes listed
    before it; when it answers [not-found], the input is blank or contains
    no runtime of the list. *)
Theorem getContainerRuntime_first_match (input : string) :
  (getContainerRuntime TrimSpace input = RuntimeNotFound ∧
   (String.length (TrimSpace input) = 0 ∨
    Forall (λ r, Contains input r = false) ContainerRuntimes)) ∨
  ∃ pre post,
    ContainerRuntimes = pre ++ getContainerRuntime TrimSpace input :: post ∧
    String.length (TrimSpace input) ≠ 0 ∧
    Contains input (getContainerRuntime TrimSpace input) = true ∧
    Forall (λ r, Contains input r = false) pre.
Proof.
  unfold getContainerRuntime.
  destruct (Nat.ltb_spec (String.length (TrimSpace input)) 1) as [Hlen|Hlen].
  - left. split; [done|]. left. lia.
  - destruct (firstContained_spec input ContainerRuntimes)
      as [[Hnone Hall]|(pre & post & Heq & Hfound & Hpre)].
    + left. split; [done|]. by right.
    + right. exists pre, post. split_and!; [done|lia|done..].
Qed.

(** [GetContainerRuntime] answers [not-found] or one of the runtimes of the
    list, and never [lxc-libvirt]: a text that holds [lxc-libvirt] holds
    [lxc], which comes first in the list. *)
Theorem GetContainerRuntime_range (h : Host) (tgid pid : Z) :
  GetContainerRuntime TrimSpace h tgid pid = RuntimeNotFound ∨
  (GetContainerRuntime TrimSpace h tgid pid ∈ ContainerRuntimes ∧
   GetContainerRuntime TrimSpace h tgid pid ≠ RuntimeLXCLibvirt).
Proof.
  assert (∀ r : ContainerRuntime, r ∈ ContainerRuntimes → r ≠ RuntimeLXCLibvirt →
            r = RuntimeNotFound ∨ (r ∈ ContainerRuntimes ∧ r ≠ RuntimeLXCLibvirt))
    as Hconst by auto.
  unfold GetContainerRuntime. cbv zeta.
  repeat (case_decide || case_match);
    try apply getContainerRuntime_range; try (by left);
    apply Hconst; try done; unfold ContainerRuntimes; set_solver.
Qed.

(** Two machines that show the same for a file give the same text. *)
Lemma readFileString_agree (h h' : Host) (file : string) :
  statNotExist h' file = statNotExist h file →
  ReadFile h' file = ReadFile h file →
  readFileString TrimSpace h' file = readFileString TrimSpace h file.
Proof.
  intros Hstat Hread. unfold readFileString, readFile, osFileExists.
  by rewrite Hstat, Hread.
Qed.

(** The answer once the text of the control groups is known. *)
Lemma GetContainerRuntime_found (h : Host) (tgid pid : Z) :
  getContainerRuntime TrimSpace (readFileString TrimSpace h (cgroupFile tgid pid))
  ≠ RuntimeNotFound →
  GetContainerRuntime TrimSpace h tgid pid
  = getContainerRuntime TrimSpace (readFileString TrimSpace h (cgroupFile tgid pid)).
Proof.
  intros Hfound. unfold GetContainerRuntime. cbv zeta.
  by rewrite decide_True.
Qed.

(** With a [pid] below one the control groups read are those of the process
    itself, in [/proc/self/cgroup], whatever [tgid] and [pid] are: when that
    file names a runtime, that runtime is the answer; and the answer
    depends on the machine through that file, the six files probed for
    every process and the variable [container] only. *)
Theorem GetContainerRuntime_self (h h' : Host) (tgid tgid' pid pid' : Z) :
  (pid < 1)%Z → (pid' < 1)%Z →
  Forall (λ file, statNotExist h' file = statNotExist h file ∧
                  ReadFile h' file = ReadFile h file)
         ("/proc/self/cgroup" :: fixedProbes) →
  Getenv h' "container" = Getenv h "container" →
  GetContainerRuntime TrimSpace h' tgid' pid'
  = GetContainerRuntime TrimSpace h tgid pid ∧
  (getContainerRuntime TrimSpace (readFileString TrimSpace h "/proc/self/cgroup")
   ≠ RuntimeNotFound →
   GetContainerRuntime TrimSpace h tgid pid
   = getContainerRuntime TrimSpace
       (readFileString TrimSpace h "/proc/self/cgroup")).
Proof.
  intros Hpid Hpid' Hagree Henv.
  assert (cgroupFile tgid pid = "/proc/self/cgroup") as Hfile.
  { unfold cgroupFile. by rewrite decide_False by lia. }
  assert (cgroupFile tgid' pid' = "/proc/self/cgroup") as Hfile'.
  { unfold cgroupFile. by rewrite decide_False by lia. }
  split.
  - unfold fixedProbes in Hagree.
    repeat (apply Forall_cons in Hagree as [[? ?] Hagree]).
    unfold GetContainerRuntime. cbv zeta. rewrite Hfile, Hfile', Henv.
    unfold osFileExists.
    rewrite !(readFileString_agree h h') by done.
    by repeat match goal with
              | H : statNotExist h' _ = _ |- _ => rewrite H; clear H
              end.
  - intros Hfound. rewrite <-Hfile. apply GetContainerRuntime_found.
    by rewrite Hfile.
Qed.

(** On a machine where none of the six files probed exists (the file of the
    control groups, [/proc/vz], [/__runsc_containers__], [/proc/1/cmdline],
    [/proc/version_signature], [/run/systemd/container]) and [container] is
    not set in the environment, no runtime is found, whatever else
    exists. *)
Theorem GetContainerRuntime_nothing (h : Host) (tgid pid : Z) :
  Forall (λ file, statNotExist h file = true)
    [ cgroupFile tgid pid; "/proc/vz"; "/__runsc_containers__";
      "/proc/1/cmdline"; "/proc/version_signature"; "/run/systemd/container" ] →
  Getenv h "container" = "" →
  GetContainerRuntime TrimSpace h tgid pid = RuntimeNotFound.
Proof.
  intros Hstat Henv.
  repeat (apply Forall_cons in Hstat as [? Hstat]).
  assert (∀ file, statNotExist h file = true →
            readFileString TrimSpace h file = "") as Hread.
  { intros file Hfile. unfold readFileString, readFile, osFileExists.
    by rewrite Hfile. }
  unfold GetContainerRuntime. cbv zeta.
  rewrite !Hread by done. rewrite Henv, getContainerRuntime_empty.
  unfold osFileExists.
  repeat match goal with
         | H : statNotExist h _ = true |- _ => rewrite H; clear H
         end.
  reflexivity.
Qed.

(** When the file of the control groups names a runtime, that runtime is
    the answer of [GetContainerRuntime], whatever the other files and the
    environment show.  The file is [/proc/self/cgroup] for a [pid] below
    one, [/proc/<pid>/cgroup] for a [tgid] below one, and
    [/proc/<tgid>/task/<pid>/cgroup] otherwise. *)
Theorem GetContainerRuntime_cgroup_first (h : Host) (tgid pid : Z)
    (file : string) (r : ContainerRuntime) :
  file = (if decide (pid < 1)%Z then "/proc/self/cgroup"
          else if decide (tgid < 1)%Z then "/proc/" +:+ pretty pid +:+ "/cgroup"
          else "/proc/" +:+ pretty tgid +:+ "/task/" +:+ pretty pid +:+ "/cgroup") →
  getContainerRuntime TrimSpace (readFileString TrimSpace h file) = r →
  r ≠ RuntimeNotFound →
  GetContainerRuntime TrimSpace h tgid pid = r ∧
  r ∈ ContainerRuntimes ∧
  Contains (readFileString TrimSpace h file) r = true.
Proof.
  intros Hfile Hr Hfound.
  assert (file = cgroupFile tgid pid) as ->.
  { rewrite Hfile. unfold cgroupFile.
    repeat case_decide; try done; lia. }
  split; [|split].
  - rewrite GetContainerRuntime_found; [done|]. by rewrite Hr.
  - destruct (getContainerRuntime_range
                (readFileString TrimSpace h (cgroupFile tgid pid)))
      as [Hnone|[Hin _]]; [congruence|]. by rewrite Hr in Hin.
  - subst r. revert Hfound. unfold getContainerRuntime.
    destruct (Nat.ltb _ 1); [done|].
    destruct (firstContained_spec
                (readFileString TrimSpace h (cgroupFile tgid pid))
                ContainerRuntimes)
      as [[Hnone _]|(pre & post & _ & Hcontains & _)]; [by rewrite Hnone|].
    done.
Qed.

End proc.

Lemma GetContainerRuntime_self_pod :
  GetContainerRuntime noTrim
    (mkHost (statNotExist podHost)
            (λ file, if decide (file = "/proc/1/cgroup") then Some "lxc"
                     else ReadFile podHost file)
            (Getenv podHost)) 0 (-3)
  = GetContainerRuntime noTrim podHost 7 0 ∧
  (getContainerRuntime noTrim (readFileString noTrim podHost "/proc/self/cgroup")
   ≠ RuntimeNotFound →
   GetContainerRuntime noTrim podHost 7 0
   = getContainerRuntime noTrim (readFileString noTrim podHost "/proc/self/cgroup")).
Proof.
  apply (GetContainerRuntime_self noTrim podHost
           (mkHost (statNotExist podHost)
              (λ file, if decide (file = "/proc/1/cgroup") then Some "lxc"
                       else ReadFile podHost file)
              (Getenv podHost)) 7 0 0 (-3)).
  - lia.
  - lia.
  - repeat constructor.
  - reflexivity.
Defined.

Lemma GetContainerRuntime_nothing_bare :
  statNotExist rootOnlyHost "/" = false ∧
  GetContainerRuntime noTrim rootOnlyHost 0 0 = RuntimeNotFound.
Proof.
  split; [reflexivity|].
  apply (GetContainerRuntime_nothing noTrim rootOnlyHost 0 0).
  - repeat constructor.
  - reflexivity.
Defined.

Lemma GetContainerRuntime_cgroup_first_pod :
  GetContainerRuntime noTrim taskHost 7 42 = RuntimeLXC ∧
  RuntimeLXC ∈ ContainerRuntimes ∧
  Contains (readFileString noTrim taskHost "/proc/7/task/42/cgroup") RuntimeLXC
  = true.
Proof.
  apply (GetContainerRuntime_cgroup_first noTrim taskHost 7 42
           "/proc/7/task/42/cgroup" RuntimeLXC).
  - vm_compute. reflexivity.
  - vm_compute. reflexivity.
  - discriminate.
Defined.

(** With both [docker] and [kube] in the control groups the answer is
    [docker], the first of the two in the list. *)
Example GetContainerRuntime_pod :
  GetContainerRuntime noTrim podHost 0 0 = RuntimeDocker.
Proof. vm_compute. reflexivity. Qed.

End util_facts.
